(** * Voucher selection: [calculateDiscount] and [findBestVoucher] of main.go

    A shallow embedding of the scoring function and of the bounded
    fan-out / fan-in evaluator of [main.go].

    - Go's [float64] is Rocq's primitive binary64 [float]; [<], [>], [==],
      [*] and [/] are the IEEE 754 operations of the kernel.
    - [error] values are the messages given to [errors.New].
    - The goroutines of [findBestVoucher] are a step relation on the state
      of the dispatcher (vouchers not yet started, workers holding a slot
      of the pool, results sent on the buffered channel); the reduction
      loop is a left fold over the channel's content.
    - The further properties on blocking, on the buffer and on the calls
      to the logger use a second step relation, in which the send, the
      release of the slot, [wg.Done], the close of the channel and the
      receives are steps of their own and a send needs room in the
      buffer; both relations have the same outcomes. *)

From Stdlib Require Import ZArith List String Bool Lia Permutation.
From Stdlib Require Import Floats.
From Stdlib Require Uint63.
Import ListNotations.

Local Open Scope Z_scope.
Local Open Scope list_scope.

(** ** Data model *)

Definition float64 : Set := float.
Bind Scope float_scope with float64.

(** [sql.NullFloat64] and [sql.NullInt64]: a value and whether it is set. *)
Module NullFloat64.
Record t : Set := mk { Float64 : float64; Valid : bool }.
End NullFloat64.

Module NullInt64.
(** [Int64] is an [int64]: an integer of [-2^63, 2^63). *)
Record t : Set := mk { Int64 : Z; Valid : bool }.
End NullInt64.

Record Voucher : Set := mkVoucher {
  Id : Z;
  Code : string;
  MinOrderAmount : float64;
  DiscountAmount : NullFloat64.t;
  DiscountPercentage : NullInt64.t;
  MaxDiscountAmount : NullFloat64.t
}.

(** [Voucher{}], the zero value. *)
Definition Voucher_zero : Voucher :=
  mkVoucher 0 "" 0%float
    (NullFloat64.mk 0%float false) (NullInt64.mk 0 false)
    (NullFloat64.mk 0%float false).

Definition error := string.

Definition errors_New (msg : string) : error := msg.

Definition ErrMinOrder : error :=
  errors_New "order amount does not meet minimum requirement".
Definition ErrInvalidConfig : error :=
  errors_New "invalid voucher discount configuration".
Definition ErrNoVoucher : error :=
  errors_New "no applicable voucher found".

(** ** float64 helpers *)

(** Go's [x > y] on float64. *)
Definition gtb (x y : float64) : bool := (y <? x)%float.

(** The conversion [float64(n)] of an [int64] (round to nearest even). *)
Definition float64_of_int64 (n : Z) : float64 :=
  if 0 <=? n then of_uint63 (Uint63.of_Z n)
  else if n =? - 2 ^ 63 then (- 0x1p63)%float
  else (- of_uint63 (Uint63.of_Z (- n)))%float.

(** [math.Floor]: a finite [x] is [(-1)^s * m * 2^e]. With [0 <= e] it is
    an integer. Otherwise [m < 2^53] and the integer part
    [floor (+-m / 2^(-e))] converts exactly; NaN, the infinities and the
    zeros are returned as they are. *)
Definition math_Floor (x : float64) : float64 :=
  match Prim2SF x with
  | S754_finite s m e =>
      if 0 <=? e then x
      else
        let n := cond_Zopp s (Zpos m) / 2 ^ (- e) in
        if 0 <=? n then of_uint63 (Uint63.of_Z n)
        else (- of_uint63 (Uint63.of_Z (- n)))%float
  | _ => x
  end.

(** ** calculateDiscount *)

(** The amount selected by the [if / else if / else] of lines 83-94:
    [None] is the [else] branch, which returns the error. *)
Definition selectDiscount (v : Voucher) (orderAmount : float64) : option float64 :=
  if NullFloat64.Valid (DiscountAmount v) then
    Some (NullFloat64.Float64 (DiscountAmount v))
  else if NullInt64.Valid (DiscountPercentage v) then
    let discount :=
      (orderAmount * float64_of_int64 (NullInt64.Int64 (DiscountPercentage v)) / 100)%float in
    Some (if NullFloat64.Valid (MaxDiscountAmount v)
             && gtb discount (NullFloat64.Float64 (MaxDiscountAmount v))
          then NullFloat64.Float64 (MaxDiscountAmount v)
          else discount)
  else None.

Definition calculateDiscount (v : Voucher) (orderAmount : float64)
  : float64 * option error :=
  if (orderAmount <? MinOrderAmount v)%float then (0%float, Some ErrMinOrder)
  else
    match selectDiscount v orderAmount with
    | Some discount => (math_Floor discount, None)
    | None => (0%float, Some ErrInvalidConfig)
    end.

(** ** findBestVoucher *)

(** The value a worker sends on [resultChan]. *)
Module result.
Record t : Set := mk { Voucher : Voucher; Discount : float64 }.
End result.

(** The body of one goroutine: a failed evaluation is logged and nothing is
    sent; a successful one sends the voucher with its discount. *)
Definition worker (orderAmount : float64) (v : Voucher) : list result.t :=
  match calculateDiscount v orderAmount with
  | (_, Some err) => []
  | (discount, None) => [result.mk v discount]
  end.

(** The dispatcher: [pending] are the vouchers the [for] loop has not
    reached, [running] the goroutines that hold a slot of [workerPool],
    [resultChan] the buffered channel (its capacity is [len(vouchers)], so
    a send never blocks). *)
Record pool : Set := mkPool {
  pending : list Voucher;
  running : list Voucher;
  resultChan : list result.t
}.

Section Dispatch.
(** The capacity of [workerPool]. *)
Variable W : nat.
Variable orderAmount : float64.

(** [spawn]: the loop acquires a free slot and starts the next goroutine.
    [finish]: any running goroutine evaluates its voucher, sends its
    result if there is one and releases its slot. *)
Inductive step : pool -> pool -> Prop :=
| step_spawn v p r c :
    (List.length r < W)%nat ->
    step (mkPool (v :: p) r c) (mkPool p (r ++ [v]) c)
| step_finish p r1 v r2 c :
    step (mkPool p (r1 ++ v :: r2) c)
         (mkPool p (r1 ++ r2) (c ++ worker orderAmount v)).

Inductive steps : pool -> pool -> Prop :=
| steps_refl s : steps s s
| steps_step s1 s2 s3 : step s1 s2 -> steps s2 s3 -> steps s1 s3.

(** [wg.Wait()] returns and [resultChan] is closed once every voucher was
    started and every goroutine is done. *)
Definition dispatch (vouchers : list Voucher) (chan : list result.t) : Prop :=
  steps (mkPool vouchers [] []) (mkPool [] [] chan).
End Dispatch.

(** The reduction loop over the closed channel, lines 145-152. *)
Definition reduce_step (st : Voucher * float64) (r : result.t) : Voucher * float64 :=
  let (bestVoucher, maxDiscount) := st in
  if gtb (result.Discount r) maxDiscount
  then (result.Voucher r, result.Discount r)
  else (bestVoucher, maxDiscount).

Definition reduce (chan : list result.t) : Voucher * float64 :=
  fold_left reduce_step chan (Voucher_zero, 0%float).

(** Lines 154-158. *)
Definition conclude (st : Voucher * float64) : Voucher * float64 * option error :=
  let (bestVoucher, maxDiscount) := st in
  if (maxDiscount =? 0)%float then (Voucher_zero, 0%float, Some ErrNoVoucher)
  else (bestVoucher, maxDiscount, None).

(** The outcomes of [findBestVoucher] with a pool of [W] slots. *)
Inductive findBestVoucherW (W : nat) (vouchers : list Voucher) (orderAmount : float64)
  : Voucher * float64 * option error -> Prop :=
| findBest_intro chan :
    dispatch W orderAmount vouchers chan ->
    findBestVoucherW W vouchers orderAmount (conclude (reduce chan)).

(** [workerPool := make(chan struct{}, 10)]. *)
Definition workerPoolCap : nat := 10.

Definition findBestVoucher := findBestVoucherW workerPoolCap.

(** What the goroutines of [vouchers] send, in the order of the vouchers. *)
Definition results (orderAmount : float64) (vouchers : list Voucher) : list result.t :=
  flat_map (worker orderAmount) vouchers.

(** The run in which every goroutine completes before the next one is
    started: the results arrive in the order of the vouchers. *)
Definition findBestVoucher_seq (vouchers : list Voucher) (orderAmount : float64)
  : Voucher * float64 * option error :=
  conclude (reduce (results orderAmount vouchers)).

(** What was sent together with what is still to be sent. *)
Definition total (amt : float64) (s : pool) : list result.t :=
  resultChan s ++ results amt (running s) ++ results amt (pending s).

(** The steps a state is away from the end of its run: two for a voucher
    not yet started, one for a running goroutine. *)
Definition fuel (s : pool) : nat :=
  (2 * List.length (pending s) + List.length (running s))%nat.

(** ** Vocabulary of the statements *)

(** [v] evaluates successfully with score [d]. *)
Definition scores (orderAmount : float64) (v : Voucher) (d : float64) : Prop :=
  calculateDiscount v orderAmount = (d, None).

(** [r] is the first occurrence of the maximum of [chan]: no result of
    [chan] has a greater score and no earlier one has an equal score. *)
Definition first_max (chan : list result.t) (r : result.t) : Prop :=
  exists l1 l2, chan = l1 ++ r :: l2 /\
    (forall x, In x chan -> gtb (result.Discount x) (result.Discount r) = false) /\
    (forall x, In x l1 -> (result.Discount x =? result.Discount r)%float = false).

(** The binary64 value behind a float64, by class. *)
Definition sf_nan (x : spec_float) : bool :=
  match x with S754_nan => true | _ => false end.

Definition sf_nonneg (x : spec_float) : bool :=
  match x with
  | S754_zero _ | S754_infinity false | S754_finite false _ _ => true
  | _ => false
  end.

Definition sf_finite (x : spec_float) : bool :=
  match x with
  | S754_zero _ | S754_finite _ _ _ => true
  | _ => false
  end.

(** [x != x] in Go. *)
Definition isNaN (x : float64) : bool := sf_nan (Prim2SF x).

(** A key of the values that are not NaN: the order of float64 is the
    lexicographic order of the keys, both zeros having the same key. *)
Definition k1 (x : spec_float) : Z :=
  match x with
  | S754_infinity true => -2
  | S754_finite true _ _ => -1
  | S754_zero _ | S754_nan => 0
  | S754_finite false _ _ => 1
  | S754_infinity false => 2
  end.
Definition k2 (x : spec_float) : Z :=
  match x with S754_finite s _ e => cond_Zopp s e | _ => 0 end.
Definition k3 (x : spec_float) : Z :=
  match x with S754_finite s m _ => cond_Zopp s (Zpos m) | _ => 0 end.

Definition key_lt (a b : spec_float) : Prop :=
  k1 a < k1 b \/ (k1 a = k1 b /\ (k2 a < k2 b \/ (k2 a = k2 b /\ k3 a < k3 b))).

Definition key_eq (a b : spec_float) : Prop :=
  k1 a = k1 b /\ k2 a = k2 b /\ k3 a = k3 b.

(** ** Sample vouchers *)

Definition noFloat : NullFloat64.t := NullFloat64.mk 0 false.
Definition noInt : NullInt64.t := NullInt64.mk 0 false.
Definition someFloat (x : float64) : NullFloat64.t := NullFloat64.mk x true.
Definition someInt (n : Z) : NullInt64.t := NullInt64.mk n true.

(** Scenario A: [{min 100, flat 50}] and [{min 100, pct 20, cap 90}]. *)
Definition flat50 : Voucher := mkVoucher 1 "FLAT50" 100 (someFloat 50) noInt noFloat.
Definition pct20cap90 : Voucher :=
  mkVoucher 2 "PCT20" 100 noFloat (someInt 20) (someFloat 90).
(** Scenario B: [{min 1000, flat 10}]. *)
Definition flat10min1000 : Voucher :=
  mkVoucher 3 "BIG10" 1000 (someFloat 10) noInt noFloat.
(** Scenario C: [{pct 15, no cap, min 0}]. *)
Definition pct15 : Voucher := mkVoucher 4 "PCT15" 0 noFloat (someInt 15) noFloat.
(** Scenario D: neither amount set. *)
Definition malformed : Voucher := mkVoucher 5 "BAD" 0 noFloat noInt noFloat.
Definition malformedMin1000 : Voucher := mkVoucher 6 "BAD1000" 1000 noFloat noInt noFloat.
(** A flat amount with a fraction, a flat amount of zero, a negative one,
    a percentage of ten, and a voucher with both amounts set. *)
Definition flat10_5 : Voucher := mkVoucher 7 "FLAT10.5" 0 (someFloat 10.5) noInt noFloat.
Definition flat0 : Voucher := mkVoucher 8 "FLAT0" 0 (someFloat 0) noInt noFloat.
Definition flatNeg5 : Voucher := mkVoucher 9 "NEG5" 0 (someFloat (-5)) noInt noFloat.
Definition pct10 : Voucher := mkVoucher 10 "PCT10" 0 noFloat (someInt 10) noFloat.
Definition both7_5 : Voucher :=
  mkVoucher 11 "BOTH" 0 (someFloat 7.5) (someInt 20) (someFloat 5).

(** ** fetchVouchers *)

(** [fmt.Errorf(msg + ": %w", err)]: the message of the wrapping error. *)
Definition fmt_Errorf (msg : string) (err : error) : error :=
  (msg ++ ": " ++ err)%string.

(** What the database gives to [fetchVouchers]: the cursor of
    [db.QueryContext], that is what [rows.Scan] makes of each row that
    [rows.Next] announces, and what [rows.Err] reports after the last. *)
Record Rows : Set := mkRows {
  scans : list (Voucher + error);
  rowsErr : option error
}.

(** The [for rows.Next()] loop, lines 62-68; [vouchers] is the slice built
    so far. *)
Fixpoint scanRows (rs : list (Voucher + error)) (vouchers : list Voucher)
  : list Voucher * option error :=
  match rs with
  | [] => (vouchers, None)
  | inl v :: rs' => scanRows rs' (vouchers ++ [v])
  | inr err :: _ => ([], Some (fmt_Errorf "failed to scan voucher" err))
  end.

(** [query] is the result of [db.QueryContext]; a nil slice is []. *)
Definition fetchVouchers (query : Rows + error) : list Voucher * option error :=
  match query with
  | inr err => ([], Some (fmt_Errorf "failed to fetch vouchers" err))
  | inl rows =>
      match scanRows (scans rows) [] with
      | (_, Some err) => ([], Some err)
      | (vouchers, None) =>
          match rowsErr rows with
          | Some err => ([], Some (fmt_Errorf "row iteration error" err))
          | None => (vouchers, None)
          end
      end
  end.

(** ** Calls to the logger *)

(** A call to [logger.Warn], [logger.Fatal], [logger.Error] or
    [logger.Info], with its message and fields. These are the calls the
    program makes: what the logger then writes is its own matter (the
    production logger of zap samples repeated messages). *)
Inductive logEntry : Set :=
| Warn (msg code : string) (err : error)
| Fatal (msg : string) (err : error)
| Error (msg : string) (err : error)
| Info (msg : string) (id : Z) (code : string) (discount : float64).

(** Lines 128-131: the call a goroutine makes when the evaluation fails. *)
Definition worker_log (orderAmount : float64) (v : Voucher) : list logEntry :=
  match calculateDiscount v orderAmount with
  | (_, Some err) => [Warn "Voucher condition not met" (Code v) err]
  | (_, None) => []
  end.

(** The calls of the vouchers that fail, in the order of the vouchers. *)
Definition warnings (orderAmount : float64) (vouchers : list Voucher) : list logEntry :=
  flat_map (worker_log orderAmount) vouchers.

(** ** findBestVoucher, goroutine by goroutine *)

(** The state of a call of [findBestVoucher], with the send, the release
    of the slot, [wg.Done], the close of the channel and the receives of
    the reduction loop as steps of their own:
    - [f_pending]: the vouchers the [for] loop has not reached;
    - [f_working]: the goroutines started that have not yet sent or
      returned (they hold a slot of [workerPool]);
    - [f_leaving]: the goroutines that have sent, or returned on an error,
      and have not yet run the deferred release (they still hold a slot);
    - [f_released]: the goroutines that gave their slot back and have not
      yet run the deferred [wg.Done];
    - [f_chan]: the buffer of [resultChan], oldest first;
    - [f_closed]: whether [resultChan] is closed;
    - [f_best]: [bestVoucher] and [maxDiscount];
    - [f_log]: the calls made to the logger. *)
Record fine : Set := mkFine {
  f_pending : list Voucher;
  f_working : list Voucher;
  f_leaving : list Voucher;
  f_released : list Voucher;
  f_chan : list result.t;
  f_closed : bool;
  f_best : Voucher * float64;
  f_log : list logEntry
}.

Section Fine.
(** The capacities of [workerPool] and of [resultChan]. *)
Variable W : nat.
Variable cap : nat.
Variable orderAmount : float64.

(** - [spawn], lines 119-123: the loop takes a free slot and starts the
      next goroutine;
    - [act], lines 127-136: a goroutine logs its failure and returns, or
      sends its result, which needs room in the buffer;
    - [release], line 125, and [done], line 124: the deferred calls;
    - [close], lines 140-143: after the loop, once every goroutine is
      done;
    - [recv], lines 145-152: after the loop, the reduction takes the
      oldest result of the buffer. *)
Inductive fstep : fine -> fine -> Prop :=
| fstep_spawn v p w l d c cl b lg :
    (List.length w + List.length l < W)%nat ->
    fstep (mkFine (v :: p) w l d c cl b lg)
          (mkFine p (w ++ [v]) l d c cl b lg)
| fstep_act p w1 v w2 l d c cl b lg :
    worker orderAmount v = [] \/ (List.length c < cap)%nat ->
    fstep (mkFine p (w1 ++ v :: w2) l d c cl b lg)
          (mkFine p (w1 ++ w2) (l ++ [v]) d (c ++ worker orderAmount v) cl b
             (lg ++ worker_log orderAmount v))
| fstep_release p w l1 v l2 d c cl b lg :
    fstep (mkFine p w (l1 ++ v :: l2) d c cl b lg)
          (mkFine p w (l1 ++ l2) (d ++ [v]) c cl b lg)
| fstep_done p w l d1 v d2 c cl b lg :
    fstep (mkFine p w l (d1 ++ v :: d2) c cl b lg)
          (mkFine p w l (d1 ++ d2) c cl b lg)
| fstep_close c b lg :
    fstep (mkFine [] [] [] [] c false b lg)
          (mkFine [] [] [] [] c true b lg)
| fstep_recv w l d r c cl b lg :
    fstep (mkFine [] w l d (r :: c) cl b lg)
          (mkFine [] w l d c cl (reduce_step b r) lg).

Inductive fsteps : fine -> fine -> Prop :=
| fsteps_refl s : fsteps s s
| fsteps_step s1 s2 s3 : fstep s1 s2 -> fsteps s2 s3 -> fsteps s1 s3.
End Fine.

(** The state at the call. *)
Definition fine_init (vouchers : list Voucher) : fine :=
  mkFine vouchers [] [] [] [] false (Voucher_zero, 0%float) [].

(** The range loop ends when the channel is closed and empty. *)
Definition fine_final (s : fine) : Prop :=
  f_closed s = true /\ f_chan s = [].

(** What a call returns and the calls it made to the logger. *)
Definition fineOutcome (W cap : nat) (vouchers : list Voucher) (orderAmount : float64)
  (out : Voucher * float64 * option error) (log : list logEntry) : Prop :=
  exists s, fsteps W cap orderAmount (fine_init vouchers) s /\ fine_final s /\
            out = conclude (f_best s) /\ log = f_log s.

(** [resultChan] is made with the capacity [len(vouchers)]. *)
Definition findBestVoucherF (vouchers : list Voucher) (orderAmount : float64) :=
  fineOutcome workerPoolCap (List.length vouchers) vouchers orderAmount.

(** The results in the buffer and the vouchers that may still send. *)
Definition focc (s : fine) : nat :=
  (List.length (f_chan s) + List.length (f_working s) + List.length (f_pending s))%nat.

(** Once the channel is closed no goroutine is left. *)
Definition fclosed_inv (s : fine) : Prop :=
  f_closed s = true ->
  f_pending s = [] /\ f_working s = [] /\ f_leaving s = [] /\ f_released s = [].

(** The atomic state behind a state: the goroutines that have not acted
    are running, and the channel holds what was received and what is in
    the buffer. *)
Definition fsim (W : nat) (amt : float64) (vs : list Voucher) (s : fine) : Prop :=
  exists received,
    steps W amt (mkPool vs [] [])
      (mkPool (f_pending s) (f_working s) (received ++ f_chan s)) /\
    f_best s = fold_left reduce_step received (Voucher_zero, 0%float).

(** An atomic state as a state in which no goroutine is between its send
    and its [wg.Done], and nothing was received. *)
Definition fine_of (s : pool) (lg : list logEntry) : fine :=
  mkFine (pending s) (running s) [] [] (resultChan s) false (Voucher_zero, 0%float) lg.

(** The steps a state is away, at most, from the end. *)
Definition ffuel (s : fine) : nat :=
  (5 * List.length (f_pending s) + 4 * List.length (f_working s)
   + 2 * List.length (f_leaving s) + List.length (f_released s)
   + List.length (f_chan s) + (if f_closed s then 0 else 1))%nat.

(** ** main *)

(** [orderAmount := 500.0]. *)
Definition mainOrderAmount : float64 := 500.

(** [main]: [openErr] is the error of [sql.Open], [query] the result of the
    query of [fetchVouchers]; the list is the calls a completed run makes
    to the logger. [logger.Fatal] ends the program. *)
Inductive main (openErr : option error) (query : Rows + error) : list logEntry -> Prop :=
| main_connect err :
    openErr = Some err ->
    main openErr query [Fatal "Failed to connect to database" err]
| main_fetch vouchers err :
    openErr = None ->
    fetchVouchers query = (vouchers, Some err) ->
    main openErr query [Fatal "Failed to fetch vouchers" err]
| main_none vouchers bestVoucher discount err log :
    openErr = None ->
    fetchVouchers query = (vouchers, None) ->
    findBestVoucherF vouchers mainOrderAmount (bestVoucher, discount, Some err) log ->
    main openErr query (log ++ [Error "Failed to find best voucher" err])
| main_best vouchers bestVoucher discount log :
    openErr = None ->
    fetchVouchers query = (vouchers, None) ->
    findBestVoucherF vouchers mainOrderAmount (bestVoucher, discount, None) log ->
    main openErr query
      (log ++ [Info "Best voucher found" (Id bestVoucher) (Code bestVoucher) discount]).

(** Whether [v] evaluates successfully. *)
Definition succeeds (orderAmount : float64) (v : Voucher) : bool :=
  match snd (calculateDiscount v orderAmount) with
  | None => true
  | Some _ => false
  end.

(** ** Vocabulary of the further properties *)

(** [math_Floor] on the binary64 value. *)
Definition SFfloor (y : spec_float) : spec_float :=
  match y with
  | S754_finite s m e =>
      if 0 <=? e then y
      else
        let n := cond_Zopp s (Zpos m) / 2 ^ (- e) in
        if 0 <=? n then binary_normalize prec emax n 0 false
        else SFopp (binary_normalize prec emax (- n) 0 false)
  | _ => y
  end.

(** A binary64 value without a fractional part (the zeros, the infinities
    and NaN have none). *)
Definition sf_whole (y : spec_float) : bool :=
  match y with
  | S754_finite _ m e => (0 <=? e) || (Zpos m mod 2 ^ (- e) =? 0)
  | _ => true
  end.

Definition whole (x : float64) : bool := sf_whole (Prim2SF x).

(** A whole number: a finite float64 without a fractional part. *)
Definition wholeNumber (x : float64) : bool :=
  sf_finite (Prim2SF x) && whole x.

(** The value of a binary64 that is not NaN, as a multiple of [2^-1074],
    the least positive value: [sf_one] is the value of 1, and the
    infinities, at [sf_inf], lie beyond every finite value. *)
Definition sf_one : Z := 2 ^ 1074.
Definition sf_inf : Z := 2 ^ 3000.

Definition sf_val (y : spec_float) : Z :=
  match y with
  | S754_zero _ | S754_nan => 0
  | S754_infinity s => cond_Zopp s sf_inf
  | S754_finite s m e => cond_Zopp s (Zpos m * 2 ^ (e + 1074))
  end.

(** ** Further samples *)

Definition flat50b : Voucher := mkVoucher 12 "FLAT50B" 0 (someFloat 50) noInt noFloat.

(** A table of three rows, and a cursor whose second row does not scan. *)
Definition threeRows : Rows + error :=
  inl (mkRows [inl flat50; inl pct20cap90; inl malformed] None).
Definition badSecondRow : Rows + error :=
  inl (mkRows [inl flat50; inr "bad column"%string; inl pct15] (Some "lost"%string)).

(** An order amount at which the product by 15 rounds up to 5000. *)
Definition roundsUp : float64 := 0x1.4d55555555555p+8.

(** * Properties *)

(** ** The order of float64 *)

Lemma SFcompare_key a b :
  sf_nan a = false -> sf_nan b = false ->
  exists c, SFcompare a b = Some c /\
    match c with
    | Lt => key_lt a b
    | Eq => key_eq a b
    | Gt => key_lt b a
    end.
Proof.
  unfold key_lt, key_eq.
  destruct a as [[]|[]| |[] m1 e1], b as [[]|[]| |[] m2 e2];
    cbn [sf_nan]; intros Ha Hb; try discriminate;
    try (eexists; split; [reflexivity|]; cbn; lia).
  - cbn [SFcompare].
    change (Pos.compare_cont Eq m1 m2) with (Pos.compare m1 m2).
    destruct (Z.compare_spec e1 e2); [destruct (Pos.compare_spec m1 m2)| |];
      (eexists; split; [reflexivity|]; cbn; lia).
  - cbn [SFcompare].
    change (Pos.compare_cont Eq m1 m2) with (Pos.compare m1 m2).
    destruct (Z.compare_spec e1 e2); [destruct (Pos.compare_spec m1 m2)| |];
      (eexists; split; [reflexivity|]; cbn; lia).
Qed.

Lemma SFcompare_nan a b :
  sf_nan a = true \/ sf_nan b = true -> SFcompare a b = None.
Proof.
  destruct a as [[]|[]| |[] ? ?], b as [[]|[]| |[] ? ?]; cbn;
    intros [H|H]; try discriminate; reflexivity.
Qed.

Ltac by_compare a b :=
  let Ha := fresh "Ha" in
  let Hb := fresh "Hb" in
  let c := fresh "c" in
  let Hc := fresh "Hc" in
  destruct (sf_nan a) eqn:Ha;
  [rewrite (SFcompare_nan a b (or_introl Ha)); intuition discriminate|];
  destruct (sf_nan b) eqn:Hb;
  [rewrite (SFcompare_nan a b (or_intror Hb)); intuition discriminate|];
  destruct (SFcompare_key a b Ha Hb) as [c [-> Hc]];
  unfold key_lt, key_eq in *;
  destruct c; split; intros; try discriminate; intuition lia.

Lemma SFltb_key a b :
  SFltb a b = true <-> sf_nan a = false /\ sf_nan b = false /\ key_lt a b.
Proof. unfold SFltb. by_compare a b. Qed.

Lemma SFeqb_key a b :
  SFeqb a b = true <-> sf_nan a = false /\ sf_nan b = false /\ key_eq a b.
Proof. unfold SFeqb. by_compare a b. Qed.

Lemma SFleb_key a b :
  SFleb a b = true <->
  sf_nan a = false /\ sf_nan b = false /\ (key_lt a b \/ key_eq a b).
Proof. unfold SFleb. by_compare a b. Qed.

Lemma key_eq_pos a b : 0 < k1 a -> key_eq a b -> a = b.
Proof.
  unfold key_eq.
  destruct a as [[]|[]| |[] m1 e1], b as [[]|[]| |[] m2 e2]; cbn;
    intros H0 (H1 & H2 & H3); try lia; try reflexivity.
  subst. f_equal. congruence.
Qed.

Lemma gtb_key x y :
  gtb x y = true <->
  isNaN x = false /\ isNaN y = false /\ key_lt (Prim2SF y) (Prim2SF x).
Proof. unfold gtb, isNaN. rewrite ltb_spec, SFltb_key. tauto. Qed.

Lemma eqb_key x y :
  (x =? y)%float = true <->
  isNaN x = false /\ isNaN y = false /\ key_eq (Prim2SF x) (Prim2SF y).
Proof. unfold isNaN. rewrite eqb_spec, SFeqb_key. tauto. Qed.

Lemma leb_key x y :
  (x <=? y)%float = true <->
  isNaN x = false /\ isNaN y = false /\
  (key_lt (Prim2SF x) (Prim2SF y) \/ key_eq (Prim2SF x) (Prim2SF y)).
Proof. unfold isNaN. rewrite leb_spec, SFleb_key. tauto. Qed.

Ltac float_order :=
  repeat match goal with
  | H : gtb _ _ = true |- _ => apply gtb_key in H
  | H : (_ =? _)%float = true |- _ => apply eqb_key in H
  | H : (_ <=? _)%float = true |- _ => apply leb_key in H
  | H : gtb _ _ = false |- _ => apply not_true_iff_false in H; rewrite gtb_key in H
  | H : (_ =? _)%float = false |- _ => apply not_true_iff_false in H; rewrite eqb_key in H
  | |- gtb _ _ = true => apply gtb_key
  | |- (_ =? _)%float = true => apply eqb_key
  | |- (_ <=? _)%float = true => apply leb_key
  | |- gtb _ _ = false => apply not_true_iff_false; rewrite gtb_key
  | |- (_ =? _)%float = false => apply not_true_iff_false; rewrite eqb_key
  end;
  unfold key_lt, key_eq in *.

Lemma gtb_trans x y z : gtb x y = true -> gtb y z = true -> gtb x z = true.
Proof. intros. float_order. intuition lia. Qed.

Lemma gtb_asym x y : gtb x y = true -> gtb y x = false.
Proof. intros. float_order. intuition lia. Qed.

Lemma gtb_irrefl x : gtb x x = false.
Proof. intros. float_order. intuition lia. Qed.

Lemma gtb_not_eqb x y : gtb x y = true -> (y =? x)%float = false.
Proof. intros. float_order. intuition lia. Qed.

Lemma gtb_not_eqb' x y : gtb x y = true -> (x =? y)%float = false.
Proof. intros. float_order. intuition lia. Qed.

Lemma eqb_gtb_l x y z : (x =? y)%float = true -> gtb y z = true -> gtb x z = true.
Proof. intros. float_order. intuition lia. Qed.

Lemma gtb_total x y :
  isNaN x = false -> isNaN y = false ->
  gtb x y = false -> gtb y x = false -> (x =? y)%float = true.
Proof. intros. float_order. intuition lia. Qed.

Lemma not_gtb_leb x y :
  isNaN x = false -> isNaN y = false -> gtb x y = false -> (x <=? y)%float = true.
Proof. intros. float_order. intuition lia. Qed.

Lemma gtb_notNaN x y : gtb x y = true -> isNaN x = false /\ isNaN y = false.
Proof. intros. float_order. tauto. Qed.

Lemma Prim2SF_zero : Prim2SF 0%float = S754_zero false.
Proof. reflexivity. Qed.

(** Two scores above zero, none greater than the other, are the same
    float64: above zero the comparison is antisymmetric up to identity. *)
Lemma gtb_zero_eq x y :
  gtb x 0 = true -> gtb y 0 = true ->
  gtb x y = false -> gtb y x = false -> x = y.
Proof.
  intros Hx Hy Hxy Hyx.
  destruct (gtb_notNaN _ _ Hx) as [Nx _], (gtb_notNaN _ _ Hy) as [Ny _].
  pose proof (gtb_total x y Nx Ny Hxy Hyx) as He.
  apply Prim2SF_inj, key_eq_pos.
  - apply gtb_key in Hx. rewrite Prim2SF_zero in Hx.
    unfold key_lt in Hx. cbn [k1 k2 k3] in Hx.
    destruct Hx as (_ & _ & [H|H]); [lia|].
    destruct (Prim2SF x) as [[]|[]| |[] ? ?]; cbn in *; lia.
  - apply eqb_key in He. tauto.
Qed.

(** ** Signs through rounding, product, quotient and floor *)

Lemma iter_pos_inv {A} (f : A -> A) (P : A -> Prop) :
  (forall x, P x -> P (f x)) -> forall n x, P x -> P (iter_pos f n x).
Proof.
  intros Hf. induction n; intros x Hx; cbn; auto.
Qed.

Lemma shr_1_nonneg mrs : 0 <= shr_m mrs -> 0 <= shr_m (shr_1 mrs).
Proof.
  destruct mrs as [m r s]. cbn [shr_m].
  destruct m as [|[p|p|]|p]; cbn; lia.
Qed.

Lemma shr_record_of_loc_m m l : shr_m (shr_record_of_loc m l) = m.
Proof. destruct l as [|[]]; reflexivity. Qed.

Lemma shr_fexp_nonneg m e l :
  0 <= m -> 0 <= shr_m (fst (shr_fexp prec emax m e l)).
Proof.
  intros Hm. unfold shr_fexp, shr.
  destruct (fexp prec emax (Zdigits2 m + e) - e); cbn [fst];
    try (rewrite shr_record_of_loc_m; exact Hm).
  apply iter_pos_inv; [exact shr_1_nonneg|].
  rewrite shr_record_of_loc_m; exact Hm.
Qed.

Lemma round_nearest_even_nonneg m l : 0 <= m -> 0 <= round_nearest_even m l.
Proof.
  intros Hm. destruct l as [|[]]; cbn; try lia.
  destruct (Z.even m); lia.
Qed.

Lemma binary_round_aux_nonneg mx ex lx :
  0 <= mx -> sf_nonneg (binary_round_aux prec emax false mx ex lx) = true.
Proof.
  intros Hm. unfold binary_round_aux.
  pose proof (shr_fexp_nonneg mx ex lx Hm) as H1.
  destruct (shr_fexp prec emax mx ex lx) as [mrs' e']. cbn [fst] in H1.
  pose proof (shr_fexp_nonneg _ e' loc_Exact
                (round_nearest_even_nonneg _ (loc_of_shr_record mrs') H1)) as H2.
  destruct (shr_fexp prec emax _ e' loc_Exact) as [mrs'' e'']. cbn [fst] in H2.
  destruct (shr_m mrs''); [reflexivity| |lia].
  destruct (e'' <=? emax - prec); reflexivity.
Qed.

Lemma binary_normalize_nonneg m e :
  0 <= m -> sf_nonneg (binary_normalize prec emax m e false) = true.
Proof.
  intros Hm. destruct m; [reflexivity| |lia].
  cbn [binary_normalize]. unfold binary_round.
  destruct (shl_align _ _ _). apply binary_round_aux_nonneg. lia.
Qed.

Lemma SFmul_nonneg x y :
  sf_nonneg x = true -> sf_nonneg y = true ->
  sf_finite x = true -> sf_finite y = true ->
  sf_nonneg (SF64mul x y) = true.
Proof.
  destruct x as [sx|[]| |[] mx ex], y as [sy|[]| |[] my ey];
    cbn; try discriminate; intros; try reflexivity.
  apply binary_round_aux_nonneg. lia.
Qed.

Lemma SFdiv_nonneg x my ey :
  sf_nonneg x = true ->
  sf_nonneg (SF64div x (S754_finite false my ey)) = true.
Proof.
  destruct x as [sx|[]| |[] mx ex]; cbn [sf_nonneg]; try discriminate; intros _;
    try reflexivity.
  unfold SF64div, SFdiv, SFdiv_core_binary.
  set (m' := match _ - _ - _ with Z0 => _ | Zpos _ => _ | Zneg _ => _ end).
  assert (Hm' : 0 <= m').
  { subst m'. destruct (_ - _ - _); try lia. apply Z.shiftl_nonneg. lia. }
  pose proof (Z.div_pos m' (Zpos my) Hm' ltac:(lia)) as Hq.
  unfold Z.div in Hq. destruct (Z.div_eucl m' (Z.pos my)) as [q r].
  cbn [fst] in Hq. apply binary_round_aux_nonneg. exact Hq.
Qed.

Lemma shr_fexp_exp m e l :
  snd (shr_fexp prec emax m e l) = Z.max e (fexp prec emax (Zdigits2 m + e)).
Proof.
  unfold shr_fexp, shr.
  destruct (fexp prec emax (Zdigits2 m + e) - e) eqn:E; cbn [snd]; lia.
Qed.

Lemma shr_1_digits d mrs :
  0 <= shr_m mrs /\ Zdigits2 (shr_m mrs) <= d ->
  0 <= shr_m (shr_1 mrs) /\ Zdigits2 (shr_m (shr_1 mrs)) <= d.
Proof.
  destruct mrs as [m r s]. cbn [shr_m].
  destruct m as [|[p|p|]|p]; cbn; lia.
Qed.

Lemma shr_fexp_digits m e l :
  0 <= m -> Zdigits2 (shr_m (fst (shr_fexp prec emax m e l))) <= Zdigits2 m.
Proof.
  intros Hm. unfold shr_fexp, shr.
  destruct (fexp prec emax (Zdigits2 m + e) - e); cbn [fst];
    try (rewrite shr_record_of_loc_m; lia).
  apply (iter_pos_inv shr_1 _ (shr_1_digits (Zdigits2 m))).
  rewrite shr_record_of_loc_m. lia.
Qed.

Lemma digits2_pos_succ p :
  (digits2_pos (Pos.succ p) <= Pos.succ (digits2_pos p))%positive.
Proof. induction p; cbn; lia. Qed.

Lemma round_nearest_even_digits m l :
  0 <= m -> Zdigits2 (round_nearest_even m l) <= Zdigits2 m + 1.
Proof.
  intros Hm.
  assert (H1 : Zdigits2 (m + 1) <= Zdigits2 m + 1).
  { destruct m as [|p|p]; [cbn; lia| |lia].
    replace (Z.pos p + 1) with (Z.pos (Pos.succ p)) by lia.
    cbn. pose proof (digits2_pos_succ p). lia. }
  destruct l as [|[]]; cbn [round_nearest_even]; try lia.
  destruct (Z.even m); lia.
Qed.

Lemma binary_round_aux_finite mx ex lx :
  0 <= mx -> Zdigits2 mx <= 100 -> ex <= 100 ->
  sf_finite (binary_round_aux prec emax false mx ex lx) = true.
Proof.
  intros Hm Hd He. unfold binary_round_aux.
  pose proof (shr_fexp_nonneg mx ex lx Hm) as H1.
  pose proof (shr_fexp_digits mx ex lx Hm) as D1.
  pose proof (shr_fexp_exp mx ex lx) as E1.
  destruct (shr_fexp prec emax mx ex lx) as [mrs' e']. cbn [fst snd] in *.
  set (mr := round_nearest_even (shr_m mrs') (loc_of_shr_record mrs')).
  pose proof (round_nearest_even_digits _ (loc_of_shr_record mrs') H1) as D2.
  fold mr in D2.
  pose proof (shr_fexp_exp mr e' loc_Exact) as E2.
  pose proof (shr_fexp_nonneg mr e' loc_Exact
                (round_nearest_even_nonneg _ (loc_of_shr_record mrs') H1)) as H2.
  destruct (shr_fexp prec emax mr e' loc_Exact) as [mrs'' e''].
  cbn [fst snd] in E2, H2.
  destruct (shr_m mrs''); [reflexivity| |lia].
  unfold fexp, emin, prec, emax in *.
  destruct (Z.leb_spec e'' (1024 - 53)); [reflexivity|lia].
Qed.

Lemma digits2_pos_iter_xO p d :
  Zpos (digits2_pos (Pos.iter xO p d)) = Zpos (digits2_pos p) + Zpos d.
Proof.
  induction d using Pos.peano_ind.
  - cbn. lia.
  - rewrite Pos.iter_succ. cbn [digits2_pos]. lia.
Qed.

Lemma digits2_pos_size p : digits2_pos p = Pos.size p.
Proof. induction p; cbn; congruence. Qed.

Lemma digits2_pos_bound p k : 0 <= k -> Zpos p < 2 ^ k -> Zpos (digits2_pos p) <= k.
Proof.
  intros Hk Hp. rewrite digits2_pos_size.
  pose proof (Pos.size_le p) as H.
  apply Pos2Z.pos_le_pos in H. rewrite Pos2Z.inj_pow in H.
  destruct (Z.le_gt_cases (Z.pos (Pos.size p)) k) as [|Hgt]; [assumption|exfalso].
  assert (2 ^ (k + 1) <= 2 ^ Z.pos (Pos.size p)) by (apply Z.pow_le_mono_r; lia).
  replace (2 ^ (k + 1)) with (2 * 2 ^ k) in * by (rewrite Z.pow_add_r by lia; lia).
  lia.
Qed.

Lemma of_uint63_class n :
  sf_nonneg (Prim2SF (of_uint63 n)) = true /\
  sf_finite (Prim2SF (of_uint63 n)) = true.
Proof.
  rewrite of_uint63_spec.
  pose proof (Uint63.to_Z_bounded n) as [H0 H1].
  split; [apply binary_normalize_nonneg; exact H0|].
  destruct (Uint63.to_Z n) as [|p|p]; [reflexivity| |lia].
  cbn [binary_normalize]. unfold binary_round, shl_align.
  assert (Hd : Zpos (digits2_pos p) <= 63).
  { apply digits2_pos_bound; [lia|exact H1]. }
  unfold fexp, emin, prec, emax.
  destruct (Z.max _ _ - 0) eqn:E; apply binary_round_aux_finite; cbn [Zdigits2]; try lia.
  rewrite digits2_pos_iter_xO. lia.
Qed.

Lemma leb_zero_nonneg x :
  (0 <=? x)%float = true <-> sf_nonneg (Prim2SF x) = true.
Proof.
  rewrite leb_spec, Prim2SF_zero.
  destruct (Prim2SF x) as [[]|[]| |[] ? ?]; cbn; intuition discriminate.
Qed.

Lemma ltb_infinity_finite x :
  (0 <=? x)%float = true -> (x <? infinity)%float = true ->
  sf_finite (Prim2SF x) = true.
Proof.
  rewrite leb_spec, ltb_spec, Prim2SF_zero.
  change (Prim2SF infinity) with (S754_infinity false).
  destruct (Prim2SF x) as [[]|[]| |[] ? ?]; cbn; intuition discriminate.
Qed.

Lemma float64_of_int64_class n :
  0 <= n ->
  sf_nonneg (Prim2SF (float64_of_int64 n)) = true /\
  sf_finite (Prim2SF (float64_of_int64 n)) = true.
Proof.
  intros Hn. unfold float64_of_int64.
  destruct (Z.leb_spec 0 n); [apply of_uint63_class|lia].
Qed.

Lemma math_Floor_nonneg x :
  sf_nonneg (Prim2SF x) = true -> sf_nonneg (Prim2SF (math_Floor x)) = true.
Proof.
  unfold math_Floor. intros Hx.
  destruct (Prim2SF x) as [s|s| |s m e] eqn:E; try (rewrite E; exact Hx).
  destruct (0 <=? e); [rewrite E; exact Hx|].
  destruct s; [discriminate|]. cbn [cond_Zopp].
  assert (H : 0 <= Z.pos m / 2 ^ (- e)).
  { apply Z_div_nonneg_nonneg; [lia|apply Z.pow_nonneg; lia]. }
  destruct (Z.leb_spec 0 (Z.pos m / 2 ^ (- e))); [apply of_uint63_class|lia].
Qed.

Lemma math_Floor_ge_zero x : (0 <=? x)%float = true -> (0 <=? math_Floor x)%float = true.
Proof. rewrite !leb_zero_nonneg. apply math_Floor_nonneg. Qed.

Lemma percentage_ge_zero amt p :
  (0 <=? amt)%float = true -> (amt <? infinity)%float = true -> 0 <= p ->
  (0 <=? amt * float64_of_int64 p / 100)%float = true.
Proof.
  intros H0 Hf Hp. apply leb_zero_nonneg.
  rewrite div_spec, mul_spec.
  change (Prim2SF 100) with (S754_finite false 7036874417766400 (-46)).
  destruct (float64_of_int64_class p Hp) as [P1 P2].
  apply SFdiv_nonneg, SFmul_nonneg; auto.
  - apply leb_zero_nonneg; exact H0.
  - apply ltb_infinity_finite; assumption.
Qed.

(** ** calculateDiscount, case by case *)

Lemma calculateDiscount_below v amt :
  (amt <? MinOrderAmount v)%float = true ->
  calculateDiscount v amt = (0%float, Some ErrMinOrder).
Proof. unfold calculateDiscount. intros ->. reflexivity. Qed.

Lemma calculateDiscount_not_below v amt :
  (amt <? MinOrderAmount v)%float = false ->
  calculateDiscount v amt =
    match selectDiscount v amt with
    | Some discount => (math_Floor discount, None)
    | None => (0%float, Some ErrInvalidConfig)
    end.
Proof. unfold calculateDiscount. intros ->. reflexivity. Qed.

Lemma calculateDiscount_flat v amt :
  (amt <? MinOrderAmount v)%float = false ->
  NullFloat64.Valid (DiscountAmount v) = true ->
  calculateDiscount v amt =
    (math_Floor (NullFloat64.Float64 (DiscountAmount v)), None).
Proof.
  intros Hmin Hflat. rewrite (calculateDiscount_not_below _ _ Hmin).
  unfold selectDiscount. rewrite Hflat. reflexivity.
Qed.

Lemma calculateDiscount_neither v amt :
  NullFloat64.Valid (DiscountAmount v) = false ->
  NullInt64.Valid (DiscountPercentage v) = false ->
  calculateDiscount v amt =
    (0%float,
     Some (if (amt <? MinOrderAmount v)%float then ErrMinOrder else ErrInvalidConfig)).
Proof.
  intros Hflat Hpct. unfold calculateDiscount, selectDiscount.
  rewrite Hflat, Hpct. destruct (amt <? MinOrderAmount v)%float; reflexivity.
Qed.

Lemma ErrMinOrder_neq_ErrInvalidConfig : ErrMinOrder <> ErrInvalidConfig.
Proof. discriminate. Qed.

(** A failed evaluation sends nothing; a successful one sends its score. *)
Lemma worker_fail v amt d e :
  calculateDiscount v amt = (d, Some e) -> worker amt v = [].
Proof. unfold worker. intros ->. reflexivity. Qed.

Lemma worker_ok v amt d :
  scores amt v d -> worker amt v = [result.mk v d].
Proof. unfold worker, scores. intros ->. reflexivity. Qed.

Lemma In_results amt vs r :
  In r (results amt vs) <->
  In (result.Voucher r) vs /\ scores amt (result.Voucher r) (result.Discount r).
Proof.
  unfold results, scores. rewrite in_flat_map. split.
  - intros (v & Hv & Hr). unfold worker in Hr.
    destruct (calculateDiscount v amt) as [d [e|]] eqn:E; cbn in Hr; [tauto|].
    destruct Hr as [<-|[]]. cbn. auto.
  - intros [Hv Hr]. exists (result.Voucher r). split; [exact Hv|].
    unfold worker. rewrite Hr. destruct r; cbn. auto.
Qed.

(** ** The reduction loop *)

Lemma reduce_snoc chan r :
  reduce (chan ++ [r]) =
    if gtb (result.Discount r) (snd (reduce chan))
    then (result.Voucher r, result.Discount r)
    else reduce chan.
Proof.
  unfold reduce. rewrite fold_left_app. cbn [fold_left].
  destruct (fold_left reduce_step chan (Voucher_zero, 0%float)) as [b m].
  reflexivity.
Qed.

Lemma fold_reduce_spec chan : forall b0 m0,
  (fold_left reduce_step chan (b0, m0) = (b0, m0) /\
   forall x, In x chan -> gtb (result.Discount x) m0 = false)
  \/
  (exists l1 r l2, chan = l1 ++ r :: l2 /\
     fold_left reduce_step chan (b0, m0) = (result.Voucher r, result.Discount r) /\
     gtb (result.Discount r) m0 = true /\
     (forall x, In x chan -> gtb (result.Discount x) (result.Discount r) = false) /\
     (forall x, In x l1 -> (result.Discount x =? result.Discount r)%float = false)).
Proof.
  induction chan as [|x chan IH]; intros b0 m0.
  - left. split; [reflexivity|]. intros ? [].
  - cbn [fold_left reduce_step].
    destruct (gtb (result.Discount x) m0) eqn:Hx.
    + destruct (IH (result.Voucher x) (result.Discount x))
        as [[Hf Hall]|(l1 & r & l2 & -> & Hf & Hgt & Hall & Hbefore)].
      * right. exists [], x, chan. repeat split; auto.
        -- intros y [<-|Hy]; [apply gtb_irrefl|auto].
        -- intros ? [].
      * right. exists (x :: l1), r, l2. repeat split; auto.
        -- eapply gtb_trans; eassumption.
        -- intros y [<-|Hy]; [apply gtb_asym; exact Hgt|auto].
        -- intros y [<-|Hy]; [apply gtb_not_eqb; exact Hgt|auto].
    + destruct (IH b0 m0)
        as [[Hf Hall]|(l1 & r & l2 & -> & Hf & Hgt & Hall & Hbefore)].
      * left. split; [exact Hf|]. intros y [<-|Hy]; auto.
      * right. exists (x :: l1), r, l2. repeat split; auto.
        -- intros y [<-|Hy]; [|auto].
           destruct (gtb (result.Discount x) (result.Discount r)) eqn:E; [|reflexivity].
           rewrite (gtb_trans _ _ _ E Hgt) in Hx. discriminate.
        -- intros y [<-|Hy]; [|auto].
           destruct (result.Discount x =? result.Discount r)%float eqn:E; [|reflexivity].
           rewrite (eqb_gtb_l _ _ _ E Hgt) in Hx. discriminate.
Qed.

Lemma reduce_spec chan :
  (reduce chan = (Voucher_zero, 0%float) /\
   forall x, In x chan -> gtb (result.Discount x) 0 = false)
  \/
  (exists r, first_max chan r /\ gtb (result.Discount r) 0 = true /\
     reduce chan = (result.Voucher r, result.Discount r)).
Proof.
  destruct (fold_reduce_spec chan Voucher_zero 0%float)
    as [H|(l1 & r & l2 & Hc & Hf & Hgt & Hall & Hbefore)]; [left; exact H|].
  right. exists r. repeat split; auto. exists l1, l2. auto.
Qed.

Lemma first_max_In chan r : first_max chan r -> In r chan.
Proof. intros (l1 & l2 & -> & _). apply in_elt. Qed.

Lemma first_max_ge chan r x :
  first_max chan r -> In x chan -> gtb (result.Discount x) (result.Discount r) = false.
Proof. intros (l1 & l2 & _ & H & _). apply H. Qed.

Lemma conclude_spec chan :
  (conclude (reduce chan) = (Voucher_zero, 0%float, Some ErrNoVoucher) /\
   forall x, In x chan -> gtb (result.Discount x) 0 = false)
  \/
  (exists r, first_max chan r /\ gtb (result.Discount r) 0 = true /\
     conclude (reduce chan) = (result.Voucher r, result.Discount r, None)).
Proof.
  destruct (reduce_spec chan) as [[-> Hall]|(r & Hmax & Hgt & ->)].
  - left. split; [reflexivity|exact Hall].
  - right. exists r. repeat split; auto.
    unfold conclude. rewrite (gtb_not_eqb' _ _ Hgt). reflexivity.
Qed.

(** The order of delivery does not change the score or the error. *)
Lemma conclude_perm c1 c2 :
  Permutation c1 c2 ->
  snd (fst (conclude (reduce c1))) = snd (fst (conclude (reduce c2))) /\
  snd (conclude (reduce c1)) = snd (conclude (reduce c2)).
Proof.
  intros HP.
  destruct (conclude_spec c1) as [[-> H1]|(r1 & M1 & G1 & ->)],
           (conclude_spec c2) as [[-> H2]|(r2 & M2 & G2 & ->)]; cbn [fst snd].
  - auto.
  - apply first_max_In in M2. apply (Permutation_in _ (Permutation_sym HP)) in M2.
    rewrite (H1 _ M2) in G2. discriminate.
  - apply first_max_In in M1. apply (Permutation_in _ HP) in M1.
    rewrite (H2 _ M1) in G1. discriminate.
  - split; [|reflexivity].
    apply gtb_zero_eq; auto.
    + apply (first_max_ge c2 r2 r1 M2).
      apply (Permutation_in _ HP), first_max_In, M1.
    + apply (first_max_ge c1 r1 r2 M1).
      apply (Permutation_in _ (Permutation_sym HP)), first_max_In, M2.
Qed.

(** ** The dispatcher *)

Section DispatchFacts.
Variable W : nat.
Variable amt : float64.

Lemma step_total s1 s2 :
  step W amt s1 s2 -> Permutation (total amt s1) (total amt s2).
Proof.
  unfold total, results. intros [v p r c Hlen|p r1 v r2 c]; cbn [resultChan running pending].
  - rewrite flat_map_app. cbn [flat_map]. rewrite app_nil_r, <- !app_assoc.
    reflexivity.
  - rewrite !flat_map_app. cbn [flat_map]. rewrite <- !app_assoc.
    apply Permutation_app_head, Permutation_app_swap_app.
Qed.

Lemma steps_total s1 s2 :
  steps W amt s1 s2 -> Permutation (total amt s1) (total amt s2).
Proof.
  induction 1 as [s|s1 s2 s3 H12 _ IH]; [reflexivity|].
  etransitivity; [apply step_total; exact H12|exact IH].
Qed.

(** The closed channel holds the results of the vouchers, in some order. *)
Lemma dispatch_perm vs chan :
  dispatch W amt vs chan -> Permutation (results amt vs) chan.
Proof.
  intros H. apply steps_total in H. unfold total in H.
  cbn [resultChan running pending results flat_map] in H.
  rewrite app_nil_r in H. exact H.
Qed.

(** At most [W] goroutines hold a slot. *)
Lemma step_bounded s1 s2 :
  step W amt s1 s2 ->
  (List.length (running s1) <= W)%nat -> (List.length (running s2) <= W)%nat.
Proof.
  intros [v p r c Hlen|p r1 v r2 c]; cbn [running];
    rewrite !length_app; cbn [List.length]; lia.
Qed.

(** With one slot or more the run that completes each goroutine before
    the next is started reaches the end, whatever was sent before. *)
Lemma steps_in_order vs : forall c,
  (1 <= W)%nat ->
  steps W amt (mkPool vs [] c) (mkPool [] [] (c ++ results amt vs)).
Proof.
  induction vs as [|v vs IH]; intros c HW.
  - cbn. rewrite app_nil_r. constructor.
  - eapply steps_step; [apply step_spawn; cbn; lia|].
    eapply steps_step; [apply (step_finish W amt vs [] v [] c)|].
    cbn [app results flat_map]. rewrite app_assoc. apply IH, HW.
Qed.

(** Every step consumes one unit of [fuel], so no run is infinite; and
    with one slot or more a state that is not final can step, so no run
    is stuck: every run extends to a complete one. *)
Lemma step_fuel s1 s2 : step W amt s1 s2 -> (fuel s2 + 1 = fuel s1)%nat.
Proof.
  intros [v p r c Hlen|p r1 v r2 c]; unfold fuel; cbn [pending running];
    rewrite ?length_app; cbn [List.length]; rewrite ?length_app; lia.
Qed.

Lemma step_progress s :
  (1 <= W)%nat -> fuel s <> 0%nat -> exists s', step W amt s s'.
Proof.
  intros HW Hf. destruct s as [p r c]. destruct r as [|v r].
  - destruct p as [|v p]; [contradiction Hf; reflexivity|].
    eexists. apply step_spawn. cbn. lia.
  - eexists. apply (step_finish W amt p [] v r c).
Qed.

Lemma steps_complete :
  (1 <= W)%nat ->
  forall n s, fuel s = n -> exists chan, steps W amt s (mkPool [] [] chan).
Proof.
  intros HW. induction n as [|n IH]; intros s Hs.
  - destruct s as [[|v p] [|w r] c]; try discriminate Hs.
    exists c. constructor.
  - destruct (step_progress s HW) as [s' Hstep]; [lia|].
    pose proof (step_fuel _ _ Hstep) as Hf.
    destruct (IH s') as [chan Hrun]; [lia|].
    exists chan. eapply steps_step; eassumption.
Qed.

Lemma dispatch_in_order vs :
  (1 <= W)%nat -> dispatch W amt vs (results amt vs).
Proof. intros HW. apply (steps_in_order vs [] HW). Qed.
End DispatchFacts.

(** ** Outcomes of findBestVoucher *)

Lemma findBestVoucherW_inv W vs amt out :
  findBestVoucherW W vs amt out ->
  exists chan, Permutation (results amt vs) chan /\ out = conclude (reduce chan).
Proof.
  intros [chan H]. exists chan. split; [|reflexivity].
  eapply dispatch_perm; exact H.
Qed.

Lemma findBestVoucherW_seq W vs amt :
  (1 <= W)%nat -> findBestVoucherW W vs amt (findBestVoucher_seq vs amt).
Proof. intros HW. constructor. apply dispatch_in_order, HW. Qed.

Lemma findBestVoucher_total vs amt : exists out, findBestVoucher vs amt out.
Proof.
  exists (findBestVoucher_seq vs amt).
  apply findBestVoucherW_seq. unfold workerPoolCap. lia.
Qed.

(** Every outcome is the error with no winner, when no result is above
    zero, or a winner among the vouchers with the score that no other
    successful voucher exceeds. *)
Lemma findBestVoucherW_cases W vs amt out :
  findBestVoucherW W vs amt out ->
  (out = (Voucher_zero, 0%float, Some ErrNoVoucher) /\
   forall v d, In v vs -> scores amt v d -> gtb d 0 = false)
  \/
  (exists w s, out = (w, s, None) /\ In w vs /\ scores amt w s /\
     gtb s 0 = true /\
     forall v d, In v vs -> scores amt v d -> gtb d s = false).
Proof.
  intros H. apply findBestVoucherW_inv in H. destruct H as (chan & HP & ->).
  assert (Hin : forall r, In r chan <->
            In (result.Voucher r) vs /\ scores amt (result.Voucher r) (result.Discount r)).
  { intros r. rewrite <- In_results. split; apply Permutation_in;
      [apply Permutation_sym|]; exact HP. }
  destruct (conclude_spec chan) as [[-> Hall]|(r & Hmax & Hgt & ->)].
  - left. split; [reflexivity|]. intros v d Hv Hd.
    apply (Hall (result.mk v d)), Hin. cbn. auto.
  - right. exists (result.Voucher r), (result.Discount r).
    pose proof (first_max_In _ _ Hmax) as Hr. apply Hin in Hr.
    repeat split; try tauto.
    intros v d Hv Hd. apply (first_max_ge chan r (result.mk v d) Hmax), Hin.
    cbn. auto.
Qed.

Lemma findBestVoucherW_none W vs amt out :
  findBestVoucherW W vs amt out ->
  (forall v d, In v vs -> scores amt v d -> gtb d 0 = false) ->
  out = (Voucher_zero, 0%float, Some ErrNoVoucher).
Proof.
  intros H Hall.
  destruct (findBestVoucherW_cases _ _ _ _ H)
    as [[-> _]|(w & s & _ & Hw & Hs & Hgt & _)]; [reflexivity|].
  rewrite (Hall w s Hw Hs) in Hgt. discriminate.
Qed.

Lemma findBestVoucherW_some W vs amt out :
  findBestVoucherW W vs amt out ->
  (exists v d, In v vs /\ scores amt v d /\ gtb d 0 = true) ->
  exists w s, out = (w, s, None) /\ In w vs /\ scores amt w s /\
    gtb s 0 = true /\
    forall v d, In v vs -> scores amt v d -> gtb d s = false.
Proof.
  intros H (v & d & Hv & Hd & Hgt).
  destruct (findBestVoucherW_cases _ _ _ _ H) as [[_ Hall]|Hsome]; [|exact Hsome].
  rewrite (Hall v d Hv Hd) in Hgt. discriminate.
Qed.

(** ** math.Floor and the scenarios of the specification, evaluated *)

Example math_Floor_values :
  math_Floor 49.5 = 49%float /\ math_Floor 10.5 = 10%float /\
  math_Floor 0.5 = 0%float /\ math_Floor (-0.5) = (-1)%float /\
  math_Floor (-10.5) = (-11)%float /\ math_Floor 90 = 90%float /\
  math_Floor 4503599627370495.5 = 4503599627370495%float /\
  math_Floor (-4503599627370495.5) = (-4503599627370496)%float /\
  math_Floor 0x1p-1074 = 0%float /\ math_Floor (-0x1p-1074) = (-1)%float /\
  math_Floor 0x1p600 = 0x1p600%float /\
  math_Floor infinity = infinity /\ math_Floor neg_infinity = neg_infinity /\
  math_Floor (-0) = (-0)%float /\ isNaN (math_Floor nan) = true.
Proof. repeat split; reflexivity. Qed.

Example scenario_A :
  findBestVoucher_seq [flat50; pct20cap90] 500 = (pct20cap90, 90%float, None).
Proof. reflexivity. Qed.

Example scenario_B :
  findBestVoucher_seq [flat10min1000] 500 = (Voucher_zero, 0%float, Some ErrNoVoucher).
Proof. reflexivity. Qed.

Example scenario_C : calculateDiscount pct15 333 = (49%float, None).
Proof. reflexivity. Qed.

Example scenario_D :
  findBestVoucher_seq [malformed; flat50] 500 = (flat50, 50%float, None).
Proof. reflexivity. Qed.

(** Scenario A, whatever the schedule: the capped percentage wins with 90. *)
Example scenario_A_every_run out :
  findBestVoucher [flat50; pct20cap90] 500 out -> out = (pct20cap90, 90%float, None).
Proof.
  intros H.
  destruct (findBestVoucherW_some _ _ _ _ H) as (w & s & -> & Hw & Hs & _ & Hmax).
  { exists pct20cap90, 90%float. split; [right; left; reflexivity|].
    split; reflexivity. }
  assert (H90 : gtb 90 s = false).
  { apply (Hmax pct20cap90); [right; left; reflexivity|reflexivity]. }
  unfold scores in Hs.
  destruct Hw as [<-|[<-|[]]].
  - change (calculateDiscount flat50 500) with (50%float, @None error) in Hs.
    injection Hs as <-. discriminate H90.
  - change (calculateDiscount pct20cap90 500) with (90%float, @None error) in Hs.
    injection Hs as <-. reflexivity.
Qed.

(** ** Whole numbers as float64 *)

Lemma iter_xO_value p d : Zpos (Pos.iter xO p d) = Zpos p * 2 ^ Zpos d.
Proof.
  induction d using Pos.peano_ind.
  - cbn. lia.
  - rewrite Pos.iter_succ, Pos2Z.inj_xO, IHd, Pos2Z.inj_succ, Z.pow_succ_r by lia.
    lia.
Qed.

Lemma binary_round_aux_exact m e :
  Zpos (digits2_pos m) = 53 -> -1074 <= e <= 971 ->
  binary_round_aux prec emax false (Zpos m) e loc_Exact = S754_finite false m e.
Proof.
  intros Hd He.
  assert (Hs : shr_fexp prec emax (Zpos m) e loc_Exact
               = (Build_shr_record (Zpos m) false false, e)).
  { unfold shr_fexp, shr. cbn [Zdigits2]. rewrite Hd.
    replace (fexp prec emax (53 + e) - e) with 0
      by (unfold fexp, emin, prec, emax; lia).
    reflexivity. }
  unfold binary_round_aux. rewrite Hs.
  cbn [shr_m loc_of_shr_record round_nearest_even]. rewrite Hs. cbn [shr_m].
  destruct (Z.leb_spec e (emax - prec)); [reflexivity|].
  unfold emax, prec in *. lia.
Qed.

(** A whole number below [2^53] converts to the float64 with the same
    value: 53 digits of mantissa, the number shifted to the left. *)
Lemma binary_normalize_exact p :
  Zpos p < 2 ^ 53 ->
  exists M,
    binary_normalize prec emax (Zpos p) 0 false
      = S754_finite false M (Zpos (digits2_pos p) - 53) /\
    Zpos M = Zpos p * 2 ^ (53 - Zpos (digits2_pos p)).
Proof.
  intros Hp.
  assert (Hd : Zpos (digits2_pos p) <= 53) by (apply digits2_pos_bound; [lia|exact Hp]).
  cbn [binary_normalize]. unfold binary_round, shl_align.
  replace (fexp prec emax (Z.pos (digits2_pos p) + 0))
    with (Zpos (digits2_pos p) - 53) by (unfold fexp, emin, prec, emax; lia).
  destruct (Zpos (digits2_pos p) - 53 - 0) as [|q|q] eqn:E; [|lia|].
  - exists p. replace (Zpos (digits2_pos p) - 53) with 0 by lia.
    split; [apply binary_round_aux_exact; lia|].
    replace (53 - Zpos (digits2_pos p)) with 0 by lia. lia.
  - exists (Pos.iter xO p q). split.
    + apply binary_round_aux_exact; [|lia].
      rewrite digits2_pos_iter_xO. lia.
    + rewrite iter_xO_value. f_equal. f_equal. lia.
Qed.

Lemma of_uint63_of_Z_spec n :
  0 <= n < 2 ^ 53 ->
  Prim2SF (of_uint63 (Uint63.of_Z n)) = binary_normalize prec emax n 0 false.
Proof.
  intros Hn. rewrite of_uint63_spec, Uint63.of_Z_spec.
  rewrite Z.mod_small; [reflexivity|].
  change Uint63.wB with (2 ^ 63). 
  assert (2 ^ 53 < 2 ^ 63) by (apply Z.pow_lt_mono_r; lia). lia.
Qed.

Lemma digits2_pos_gt p : Zpos p < 2 ^ Zpos (digits2_pos p).
Proof.
  rewrite digits2_pos_size.
  pose proof (Pos.size_gt p) as H. apply Pos2Z.pos_lt_pos in H.
  rewrite Pos2Z.inj_pow in H. exact H.
Qed.

Lemma digits2_pos_le p : 2 ^ (Zpos (digits2_pos p) - 1) <= Zpos p.
Proof.
  rewrite digits2_pos_size.
  pose proof (Pos.size_le p) as H. apply Pos2Z.pos_le_pos in H.
  rewrite Pos2Z.inj_pow in H.
  assert (E : 2 ^ Zpos (Pos.size p) = 2 * 2 ^ (Zpos (Pos.size p) - 1)).
  { rewrite <- Z.pow_succ_r by lia. f_equal. lia. }
  change (Z.pos 2) with 2 in H. lia.
Qed.

Lemma digits2_pos_lower p j : 0 <= j -> 2 ^ j <= Zpos p -> j + 1 <= Zpos (digits2_pos p).
Proof.
  intros Hj H. pose proof (digits2_pos_gt p) as Hgt.
  destruct (Z.le_gt_cases (j + 1) (Zpos (digits2_pos p))) as [|Hlt]; [assumption|exfalso].
  assert (2 ^ Zpos (digits2_pos p) <= 2 ^ j) by (apply Z.pow_le_mono_r; lia).
  lia.
Qed.

(** A valid binary64 mantissa has at most 53 digits; it has 53 when the
    exponent is above the least one. *)
Lemma valid_mantissa s m e :
  valid_binary (S754_finite s m e) = true ->
  Zpos m < 2 ^ 53 /\ -1074 <= e <= 971 /\
  (-1074 < e -> 2 ^ 52 <= Zpos m).
Proof.
  unfold SpecFloat.valid_binary, bounded, canonical_mantissa, fexp, emin, prec, emax.
  intros H. apply andb_true_iff in H. destruct H as [H1 H2].
  apply Z.eqb_eq in H1. apply Z.leb_le in H2.
  assert (Hd : Zpos (digits2_pos m) <= 53) by lia.
  split; [|split; [lia|]].
  - pose proof (digits2_pos_gt m).
    assert (2 ^ Zpos (digits2_pos m) <= 2 ^ 53) by (apply Z.pow_le_mono_r; lia). lia.
  - intros He. assert (Hd' : Zpos (digits2_pos m) = 53) by lia.
    pose proof (digits2_pos_le m) as Hle. rewrite Hd' in Hle. exact Hle.
Qed.

(** The integer part: its size and how it encloses the mantissa. *)
Lemma floor_quotient_pos m k :
  0 < k -> Zpos m < 2 ^ 53 ->
  let n := Zpos m / 2 ^ k in
  0 <= n < 2 ^ 53 /\ n * 2 ^ k <= Zpos m.
Proof.
  intros Hk Hm n.
  assert (HT : 0 < 2 ^ k) by (apply Z.pow_pos_nonneg; lia).
  pose proof (Z.mul_div_le (Zpos m) (2 ^ k) HT) as H1.
  assert (0 <= n) by (apply Z.div_pos; lia).
  assert (n <= Zpos m) by (apply Z.div_le_upper_bound; nia).
  lia.
Qed.

Lemma floor_quotient_neg m k :
  0 < k -> Zpos m < 2 ^ 53 ->
  let n := - Zpos m / 2 ^ k in
  n < 0 /\ - n < 2 ^ 53 /\ Zpos m <= - n * 2 ^ k.
Proof.
  intros Hk Hm n.
  assert (HT : 2 <= 2 ^ k).
  { change 2 with (2 ^ 1) at 1. apply Z.pow_le_mono_r; lia. }
  pose proof (Z.mul_div_le (- Zpos m) (2 ^ k) ltac:(lia)) as H1.
  pose proof (Z.mul_succ_div_gt (- Zpos m) (2 ^ k) ltac:(lia)) as H2.
  fold n in H1, H2. nia.
Qed.

Lemma math_Floor_spec x : Prim2SF (math_Floor x) = SFfloor (Prim2SF x).
Proof.
  unfold math_Floor, SFfloor.
  pose proof (Prim2SF_valid x) as Hv.
  destruct (Prim2SF x) as [s|s| |s m e] eqn:E; try exact E.
  destruct (Z.leb_spec 0 e) as [He|He]; [exact E|].
  destruct (valid_mantissa _ _ _ Hv) as (Hm & _ & _).
  destruct s; cbn [cond_Zopp].
  - destruct (floor_quotient_neg m (- e) ltac:(lia) Hm) as (Hn & Hb & _).
    change (Z.neg m) with (- Zpos m).
    destruct (Z.leb_spec 0 (- Zpos m / 2 ^ (- e))); [lia|].
    rewrite opp_spec, of_uint63_of_Z_spec by lia. reflexivity.
  - destruct (floor_quotient_pos m (- e) ltac:(lia) Hm) as (Hn & _).
    destruct (Z.leb_spec 0 (Zpos m / 2 ^ (- e))); [|lia].
    apply of_uint63_of_Z_spec. lia.
Qed.

(** Below exponent zero the floor is zero or a whole number [q] with its
    53-digit mantissa [M]. *)
Lemma SFfloor_fraction s m e :
  valid_binary (S754_finite s m e) = true -> e < 0 ->
  (s = false /\ Zpos m / 2 ^ (- e) = 0 /\
   SFfloor (S754_finite s m e) = S754_zero false) \/
  (exists q M,
     SFfloor (S754_finite s m e) = S754_finite s M (Zpos (digits2_pos q) - 53) /\
     Zpos M = Zpos q * 2 ^ (53 - Zpos (digits2_pos q)) /\
     Zpos (digits2_pos q) <= 53 /\
     cond_Zopp s (Zpos m) / 2 ^ (- e) = cond_Zopp s (Zpos q) /\
     (if s then Zpos m <= Zpos q * 2 ^ (- e) else Zpos q * 2 ^ (- e) <= Zpos m)).
Proof.
  intros Hv He. destruct (valid_mantissa _ _ _ Hv) as (Hm & _ & _).
  unfold SFfloor. destruct (Z.leb_spec 0 e); [lia|].
  destruct s; cbn [cond_Zopp].
  - right. change (Z.neg m) with (- Zpos m).
    destruct (floor_quotient_neg m (- e) ltac:(lia) Hm) as (Hn & Hb & Hle).
    destruct (Z.leb_spec 0 (- Zpos m / 2 ^ (- e))); [lia|].
    destruct (- Zpos m / 2 ^ (- e)) as [|q|q] eqn:En; try lia.
    change (- Z.neg q) with (Zpos q) in *.
    destruct (binary_normalize_exact q Hb) as (M & -> & HM).
    exists q, M. cbn [SFopp negb]. repeat split; auto.
    apply digits2_pos_bound; lia.
  - destruct (floor_quotient_pos m (- e) ltac:(lia) Hm) as (Hn & Hle).
    destruct (Z.leb_spec 0 (Zpos m / 2 ^ (- e))); [|lia].
    destruct (Zpos m / 2 ^ (- e)) as [|q|q] eqn:En; try lia.
    + left. auto.
    + right. destruct (binary_normalize_exact q ltac:(lia)) as (M & -> & HM).
      exists q, M. repeat split; auto.
      apply digits2_pos_bound; lia.
Qed.

Lemma pow2_split a b : 0 <= a -> 0 <= b -> 2 ^ (a + b) = 2 ^ a * 2 ^ b.
Proof. intros. apply Z.pow_add_r; assumption. Qed.

(** The floor is not above its argument. *)
Lemma SFfloor_le y :
  valid_binary y = true -> sf_nan y = false ->
  sf_nan (SFfloor y) = false /\ (key_lt (SFfloor y) y \/ key_eq (SFfloor y) y).
Proof.
  intros Hv Hn.
  assert (Hsame : SFfloor y = y ->
            sf_nan (SFfloor y) = false /\ (key_lt (SFfloor y) y \/ key_eq (SFfloor y) y)).
  { intros ->. split; [exact Hn|]. right. unfold key_eq. auto. }
  destruct y as [s|s| |s m e]; try (apply Hsame; reflexivity).
  destruct (Z.leb_spec 0 e) as [He|He].
  { apply Hsame. unfold SFfloor. destruct (Z.leb_spec 0 e); [reflexivity|lia]. }
  destruct (valid_mantissa _ _ _ Hv) as (Hm & Hrange & Hnormal).
  destruct (SFfloor_fraction s m e Hv He)
    as [(-> & _ & ->)|(q & M & -> & HM & Hd & _ & Hq)].
  { split; [reflexivity|]. left. unfold key_lt. cbn. lia. }
  split; [reflexivity|]. unfold key_lt, key_eq. cbn [k1 k2 k3].
  set (dq := Zpos (digits2_pos q)) in *.
  assert (HT : 0 < 2 ^ (- e)) by (apply Z.pow_pos_nonneg; lia).
  destruct s; cbn [cond_Zopp].
  - (* negative: the floor is further from zero *)
    assert (HE : e <= dq - 53).
    { destruct (Z.le_gt_cases 53 (- e)); [subst dq; lia|].
      pose proof (Hnormal ltac:(lia)) as H52.
      assert (Hp : 2 ^ 52 = 2 ^ (52 + e) * 2 ^ (- e)).
      { rewrite <- pow2_split by lia. f_equal. lia. }
      assert (2 ^ (52 + e) <= Zpos q) by nia.
      pose proof (digits2_pos_lower q (52 + e) ltac:(lia) ltac:(assumption)).
      subst dq. lia. }
    destruct (Z.eq_dec e (dq - 53)) as [Heq|Hneq]; [|lia].
    replace (53 - dq) with (- e) in HM by lia. lia.
  - (* positive: the floor is nearer to zero *)
    assert (HE : dq - 53 <= e).
    { destruct (Z.le_gt_cases 53 (- e)) as [Hbig|Hsmall].
      - exfalso.
        assert (2 ^ 53 <= 2 ^ (- e)) by (apply Z.pow_le_mono_r; lia). nia.
      - assert (Hp : 2 ^ 53 = 2 ^ (53 + e) * 2 ^ (- e)).
        { rewrite <- pow2_split by lia. f_equal. lia. }
        assert (Zpos q < 2 ^ (53 + e)) by nia.
        pose proof (digits2_pos_bound q (53 + e) ltac:(lia) ltac:(assumption)).
        subst dq. lia. }
    destruct (Z.eq_dec e (dq - 53)) as [Heq|Hneq]; [|lia].
    replace (53 - dq) with (- e) in HM by lia. lia.
Qed.

(** The floor of a floor is that floor. *)
Lemma SFfloor_idem y :
  valid_binary y = true -> SFfloor (SFfloor y) = SFfloor y.
Proof.
  intros Hv.
  destruct y as [s|s| |s m e]; try reflexivity.
  destruct (Z.leb_spec 0 e) as [He|He].
  { assert (E : SFfloor (S754_finite s m e) = S754_finite s m e).
    { unfold SFfloor. destruct (Z.leb_spec 0 e); [reflexivity|lia]. }
    rewrite !E. reflexivity. }
  destruct (SFfloor_fraction s m e Hv He)
    as [(-> & _ & ->)|(q & M & E & HM & Hd & _ & _)]; [reflexivity|].
  rewrite E. set (dq := Zpos (digits2_pos q)) in *.
  unfold SFfloor at 1.
  destruct (Z.leb_spec 0 (dq - 53)) as [H0|H0]; [reflexivity|].
  assert (Hq : Zpos q < 2 ^ 53).
  { pose proof (digits2_pos_gt q). fold dq in H.
    assert (2 ^ dq <= 2 ^ 53) by (apply Z.pow_le_mono_r; lia). lia. }
  destruct (binary_normalize_exact q Hq) as (M' & EM' & HM'). fold dq in EM', HM'.
  assert (M' = M) by lia. subst M'.
  assert (HT : 2 ^ (- (dq - 53)) <> 0).
  { apply Z.pow_nonzero; lia. }
  replace (- (dq - 53)) with (53 - dq) in * by lia.
  destruct s; cbn [cond_Zopp].
  - change (Z.neg M) with (- Zpos M). rewrite HM.
    replace (- (Zpos q * 2 ^ (53 - dq))) with (- Zpos q * 2 ^ (53 - dq)) by lia.
    rewrite Z.div_mul by exact HT.
    destruct (Z.leb_spec 0 (- Zpos q)); [lia|].
    replace (- - Zpos q) with (Zpos q) by lia.
    rewrite EM'. reflexivity.
  - rewrite HM, Z.div_mul by exact HT.
    destruct (Z.leb_spec 0 (Zpos q)); [|lia].
    exact EM'.
Qed.

(** A floor above zero is one or more. *)
Lemma SFfloor_pos_ge_one y :
  valid_binary y = true -> 0 < k1 (SFfloor y) ->
  key_lt (S754_finite false 4503599627370496 (-52)) (SFfloor y) \/
  key_eq (S754_finite false 4503599627370496 (-52)) (SFfloor y).
Proof.
  intros Hv Hpos. unfold key_lt, key_eq.
  destruct y as [s|s| |s m e];
    try (cbn in *; lia); try (destruct s; cbn in *; lia).
  destruct (Z.leb_spec 0 e) as [He|He].
  { assert (E : SFfloor (S754_finite s m e) = S754_finite s m e).
    { unfold SFfloor. destruct (Z.leb_spec 0 e); [reflexivity|lia]. }
    rewrite E in *. destruct s; cbn in *; lia. }
  destruct (SFfloor_fraction s m e Hv He)
    as [(-> & _ & E)|(q & M & E & HM & Hd & _ & _)]; rewrite E in *; [cbn in Hpos; lia|].
  destruct s; cbn in Hpos; [lia|]. cbn [k1 k2 k3 cond_Zopp].
  destruct q as [q|q|].
  - cbn [digits2_pos] in *. lia.
  - cbn [digits2_pos] in *. lia.
  - cbn in HM. cbn. lia.
Qed.

Lemma Prim2SF_one : Prim2SF 1%float = S754_finite false 4503599627370496 (-52).
Proof. reflexivity. Qed.

(** ** math.Floor *)

Lemma math_Floor_le x : isNaN x = false -> (math_Floor x <=? x)%float = true.
Proof.
  intros Hn. apply leb_key. unfold isNaN in *. rewrite math_Floor_spec.
  destruct (SFfloor_le (Prim2SF x) (Prim2SF_valid x) Hn) as [H1 H2]. auto.
Qed.

Lemma math_Floor_NaN x : isNaN (math_Floor x) = isNaN x.
Proof.
  unfold isNaN. rewrite math_Floor_spec.
  destruct (sf_nan (Prim2SF x)) eqn:E.
  - destruct (Prim2SF x); try discriminate. reflexivity.
  - apply (SFfloor_le _ (Prim2SF_valid x) E).
Qed.

Lemma math_Floor_idem x : math_Floor (math_Floor x) = math_Floor x.
Proof.
  apply Prim2SF_inj. rewrite !math_Floor_spec.
  apply SFfloor_idem, Prim2SF_valid.
Qed.

Lemma math_Floor_pos_ge_one x :
  gtb (math_Floor x) 0 = true -> (1 <=? math_Floor x)%float = true.
Proof.
  intros Hgt. apply leb_key.
  destruct (gtb_notNaN _ _ Hgt) as [Hn _].
  split; [reflexivity|]. split; [exact Hn|].
  rewrite Prim2SF_one, math_Floor_spec.
  apply SFfloor_pos_ge_one; [apply Prim2SF_valid|].
  apply gtb_key in Hgt. destruct Hgt as (_ & _ & Hlt).
  rewrite Prim2SF_zero, math_Floor_spec in Hlt.
  unfold key_lt in Hlt. cbn [k1 k2 k3] in Hlt.
  destruct (SFfloor (Prim2SF x)) as [[]|[]| |[] ? ?]; cbn in *; lia.
Qed.

Lemma SFfloor_whole y : valid_binary y = true -> sf_whole (SFfloor y) = true.
Proof.
  intros Hv. destruct y as [s|s| |s m e]; try reflexivity.
  destruct (Z.leb_spec 0 e) as [He|He].
  { unfold SFfloor. destruct (Z.leb_spec 0 e) as [H|H]; [|lia].
    cbn. destruct (Z.leb_spec 0 e); [reflexivity|lia]. }
  destruct (SFfloor_fraction s m e Hv He)
    as [(-> & _ & ->)|(q & M & -> & HM & Hd & _ & _)]; [reflexivity|].
  cbn [sf_whole]. apply orb_true_iff. right. apply Z.eqb_eq.
  replace (- (Zpos (digits2_pos q) - 53)) with (53 - Zpos (digits2_pos q)) by lia.
  rewrite HM. apply Z.mod_mul. apply Z.pow_nonzero; lia.
Qed.

Lemma math_Floor_whole x : whole (math_Floor x) = true.
Proof. unfold whole. rewrite math_Floor_spec. apply SFfloor_whole, Prim2SF_valid. Qed.

Lemma leb_not_gtb x y : (x <=? y)%float = true -> gtb x y = false.
Proof. intros. float_order. intuition lia. Qed.

Lemma leb_gtb_trans x y z :
  (x <=? y)%float = true -> gtb x z = true -> gtb y z = true.
Proof. intros. float_order. intuition lia. Qed.

Lemma gtb_NaN_l x y : isNaN x = true -> gtb x y = false.
Proof. intros H. float_order. rewrite H. intuition discriminate. Qed.

Lemma leb_refl_notNaN x : isNaN x = false -> (x <=? x)%float = true.
Proof. intros. float_order. intuition lia. Qed.

Lemma leb_of_gtb x y : gtb y x = true -> (x <=? y)%float = true.
Proof. intros. float_order. intuition lia. Qed.

Lemma leb_zero_refl : (0 <=? 0)%float = true.
Proof. reflexivity. Qed.

(** The floor of [x] is not above anything that [x] is not above. *)
Lemma math_Floor_not_above x c : gtb x c = false -> gtb (math_Floor x) c = false.
Proof.
  intros H. destruct (isNaN x) eqn:Hn.
  - apply gtb_NaN_l. rewrite math_Floor_NaN. exact Hn.
  - destruct (gtb (math_Floor x) c) eqn:E; [|reflexivity].
    rewrite (leb_gtb_trans _ _ _ (math_Floor_le x Hn) E) in H. discriminate.
Qed.

Lemma math_Floor_not_above_self x : gtb (math_Floor x) x = false.
Proof. apply math_Floor_not_above, gtb_irrefl. Qed.

Lemma scores_floor amt v d :
  scores amt v d -> exists a, selectDiscount v amt = Some a /\ d = math_Floor a.
Proof.
  unfold scores, calculateDiscount.
  destruct (amt <? MinOrderAmount v)%float; [discriminate|].
  destruct (selectDiscount v amt) as [a|]; [|discriminate].
  intros H. injection H as <-. exists a. auto.
Qed.

(** A score that [calculateDiscount] returns has no fractional part. *)
Lemma scores_whole v amt d : scores amt v d -> whole d = true.
Proof.
  intros H. destruct (scores_floor _ _ _ H) as (a & _ & ->).
  apply math_Floor_whole.
Qed.

(** ** The order of float64 and the order of the values *)

Lemma sf_one_pos : 0 < sf_one.
Proof. unfold sf_one. apply Z.pow_pos_nonneg; lia. Qed.

Lemma sf_inf_split : sf_inf = 2 ^ 1926 * sf_one.
Proof. unfold sf_inf, sf_one. rewrite <- Z.pow_add_r by lia. reflexivity. Qed.

Lemma mag_bounds s m e :
  valid_binary (S754_finite s m e) = true ->
  0 < Zpos m * 2 ^ (e + 1074) < sf_inf.
Proof.
  intros Hv. destruct (valid_mantissa _ _ _ Hv) as (Hm & He & _).
  assert (H1 : 0 < 2 ^ (e + 1074)) by (apply Z.pow_pos_nonneg; lia).
  assert (H2 : 2 ^ (e + 1074) <= 2 ^ 2045) by (apply Z.pow_le_mono_r; lia).
  assert (H3 : 2 ^ 53 * 2 ^ 2045 < sf_inf).
  { unfold sf_inf. rewrite <- Z.pow_add_r by lia. apply Z.pow_lt_mono_r; lia. }
  split; [apply Z.mul_pos_pos; [reflexivity|exact H1]|].
  apply Z.lt_trans with (2 ^ 53 * 2 ^ 2045); [|exact H3].
  apply Z.le_lt_trans with (Zpos m * 2 ^ 2045).
  - apply Z.mul_le_mono_nonneg_l; [apply Pos2Z.is_nonneg|exact H2].
  - apply Z.mul_lt_mono_pos_r; [apply Z.pow_pos_nonneg; lia|exact Hm].
Qed.

Lemma mag_lt s1 m1 e1 s2 m2 e2 :
  valid_binary (S754_finite s1 m1 e1) = true ->
  valid_binary (S754_finite s2 m2 e2) = true ->
  e1 < e2 ->
  Zpos m1 * 2 ^ (e1 + 1074) < Zpos m2 * 2 ^ (e2 + 1074).
Proof.
  intros H1 H2 He.
  destruct (valid_mantissa _ _ _ H1) as (Hm1 & Hr1 & _).
  destruct (valid_mantissa _ _ _ H2) as (_ & Hr2 & Hn2).
  pose proof (Hn2 ltac:(lia)) as Hm2.
  assert (HP : 0 < 2 ^ (e1 + 1074)) by (apply Z.pow_pos_nonneg; lia).
  assert (HQ : 2 * 2 ^ (e1 + 1074) <= 2 ^ (e2 + 1074)).
  { rewrite <- Z.pow_succ_r by lia. apply Z.pow_le_mono_r; lia. }
  assert (H53 : 2 ^ 53 = 2 ^ 52 * 2).
  { change 53 with (Z.succ 52). rewrite Z.pow_succ_r by lia. apply Z.mul_comm. }
  apply Z.lt_le_trans with (2 ^ 53 * 2 ^ (e1 + 1074)).
  - apply Z.mul_lt_mono_pos_r; assumption.
  - apply Z.le_trans with (2 ^ 52 * 2 ^ (e2 + 1074)).
    + rewrite H53, <- Z.mul_assoc.
      apply Z.mul_le_mono_nonneg_l; [apply Z.pow_nonneg; lia|exact HQ].
    + apply Z.mul_le_mono_nonneg_r; [apply Z.pow_nonneg; lia|exact Hm2].
Qed.

(** The order of the keys is the order of the values. *)
Lemma key_val a b :
  valid_binary a = true -> valid_binary b = true ->
  sf_nan a = false -> sf_nan b = false ->
  (key_lt a b <-> sf_val a < sf_val b) /\ (key_eq a b <-> sf_val a = sf_val b).
Proof.
  intros Va Vb Na Nb. unfold key_lt, key_eq.
  assert (Hinf : 0 < sf_inf) by (unfold sf_inf; apply Z.pow_pos_nonneg; lia).
  destruct a as [sa|sa| |sa ma ea], b as [sb|sb| |sb mb eb]; try discriminate;
    try pose proof (mag_bounds _ _ _ Va) as Ba;
    try pose proof (mag_bounds _ _ _ Vb) as Bb;
    try (destruct sa); try (destruct sb); cbn [sf_val k1 k2 k3 cond_Zopp];
    try lia.
  - (* both negative *)
    destruct (Z.lt_trichotomy ea eb) as [H|[H|H]].
    + pose proof (mag_lt _ _ _ _ _ _ Va Vb H). lia.
    + subst eb. assert (0 < 2 ^ (ea + 1074)) by (apply Z.pow_pos_nonneg;
        destruct (valid_mantissa _ _ _ Va); lia). nia.
    + pose proof (mag_lt _ _ _ _ _ _ Vb Va H). lia.
  - (* both positive *)
    destruct (Z.lt_trichotomy ea eb) as [H|[H|H]].
    + pose proof (mag_lt _ _ _ _ _ _ Va Vb H). lia.
    + subst eb. assert (0 < 2 ^ (ea + 1074)) by (apply Z.pow_pos_nonneg;
        destruct (valid_mantissa _ _ _ Va); lia). nia.
    + pose proof (mag_lt _ _ _ _ _ _ Vb Va H). lia.
Qed.

Lemma cond_Zopp_mul s a b : cond_Zopp s (a * b) = cond_Zopp s a * b.
Proof. destruct s; cbn [cond_Zopp]; [rewrite Z.mul_opp_l|]; reflexivity. Qed.

Lemma pow2_1074 e : -1074 <= e -> e < 0 -> sf_one = 2 ^ (- e) * 2 ^ (e + 1074).
Proof.
  intros H1 H2. unfold sf_one. rewrite <- Z.pow_add_r by lia. f_equal. lia.
Qed.

Lemma pow2_1074' e : 0 <= e -> 2 ^ (e + 1074) = 2 ^ e * sf_one.
Proof. intros H. unfold sf_one. apply Z.pow_add_r; lia. Qed.

(** The floor, on the values: the multiple of [sf_one], that is the whole
    number, next below. *)
Lemma sf_val_floor y :
  valid_binary y = true ->
  sf_val (SFfloor y) = sf_val y / sf_one * sf_one.
Proof.
  intros Hv.
  pose proof sf_one_pos as H1.
  assert (H0 : sf_one <> 0) by lia.
  assert (Hdiv : forall c, c * sf_one / sf_one * sf_one = c * sf_one).
  { intros c. rewrite Z.div_mul by exact H0. reflexivity. }
  destruct y as [s|s| |s m e]; try reflexivity.
  - cbn [SFfloor sf_val]. rewrite sf_inf_split, cond_Zopp_mul.
    symmetry. apply Hdiv.
  - destruct (valid_mantissa _ _ _ Hv) as (Hm & Hr & _).
    destruct (Z.leb_spec 0 e) as [He|He].
    + assert (E : SFfloor (S754_finite s m e) = S754_finite s m e).
      { unfold SFfloor. destruct (Z.leb_spec 0 e); [reflexivity|lia]. }
      rewrite E. cbn [sf_val]. rewrite pow2_1074' by exact He.
      rewrite Z.mul_assoc, cond_Zopp_mul. symmetry. apply Hdiv.
    + assert (HP : 2 ^ (e + 1074) <> 0) by (apply Z.pow_nonzero; lia).
      assert (HQ : 2 ^ (- e) <> 0) by (apply Z.pow_nonzero; lia).
      assert (Hn : sf_val (S754_finite s m e) / sf_one
                   = cond_Zopp s (Zpos m) / 2 ^ (- e)).
      { cbn [sf_val]. rewrite (pow2_1074 e) by lia.
        rewrite cond_Zopp_mul.
        apply Z.div_mul_cancel_r; assumption. }
      rewrite Hn.
      destruct (SFfloor_fraction s m e Hv He)
        as [(-> & E0 & ->)|(q & M & -> & HM & Hd & -> & _)].
      * cbn [cond_Zopp sf_val]. rewrite E0. reflexivity.
      * cbn [sf_val]. rewrite HM, <- Z.mul_assoc, cond_Zopp_mul.
        f_equal. unfold sf_one. rewrite <- Z.pow_add_r by lia. f_equal. lia.
Qed.

(** A value without a fractional part is a multiple of [2^1074]. *)
Lemma sf_whole_val y :
  valid_binary y = true -> sf_whole y = true ->
  exists c, sf_val y = c * sf_one.
Proof.
  intros Hv Hw. destruct y as [s|s| |s m e].
  - exists 0. reflexivity.
  - exists (cond_Zopp s (2 ^ 1926)). cbn [sf_val].
    rewrite sf_inf_split. apply cond_Zopp_mul.
  - exists 0. reflexivity.
  - destruct (valid_mantissa _ _ _ Hv) as (Hm & Hr & _).
    cbn [sf_whole] in Hw. apply orb_true_iff in Hw.
    destruct (Z.leb_spec 0 e) as [He|He].
    + exists (cond_Zopp s (Zpos m * 2 ^ e)). cbn [sf_val].
      rewrite pow2_1074' by exact He. rewrite Z.mul_assoc. apply cond_Zopp_mul.
    + destruct Hw as [Hw|Hw]; [discriminate|].
      apply Z.eqb_eq in Hw.
      assert (HQ : 2 ^ (- e) <> 0) by (apply Z.pow_nonzero; lia).
      apply Z.div_exact in Hw; [|exact HQ].
      exists (cond_Zopp s (Zpos m / 2 ^ (- e))). cbn [sf_val].
      rewrite (pow2_1074 e) by lia. rewrite Hw at 1.
      rewrite (Z.mul_comm (2 ^ (- e))), <- Z.mul_assoc. apply cond_Zopp_mul.
Qed.

Lemma math_Floor_valid_val x :
  sf_val (Prim2SF (math_Floor x)) = sf_val (Prim2SF x) / sf_one * sf_one.
Proof. rewrite math_Floor_spec. apply sf_val_floor, Prim2SF_valid. Qed.

Lemma leb_val x y :
  (x <=? y)%float = true <->
  isNaN x = false /\ isNaN y = false /\ sf_val (Prim2SF x) <= sf_val (Prim2SF y).
Proof.
  rewrite leb_key. unfold isNaN.
  destruct (sf_nan (Prim2SF x)) eqn:Nx; [intuition discriminate|].
  destruct (sf_nan (Prim2SF y)) eqn:Ny; [intuition discriminate|].
  destruct (key_val _ _ (Prim2SF_valid x) (Prim2SF_valid y) Nx Ny) as [H1 H2].
  rewrite H1, H2. intuition lia.
Qed.

(** [math_Floor x] is the greatest float64 without a fractional part that
    is not above [x]. *)
Lemma math_Floor_greatest x z :
  whole z = true -> (z <=? x)%float = true -> (z <=? math_Floor x)%float = true.
Proof.
  intros Hw Hle. apply leb_val in Hle. destruct Hle as (Nz & Nx & Hle).
  apply leb_val. split; [exact Nz|]. split; [rewrite math_Floor_NaN; exact Nx|].
  rewrite math_Floor_valid_val.
  destruct (sf_whole_val _ (Prim2SF_valid z) Hw) as [c Hc].
  rewrite Hc in *.
  pose proof sf_one_pos as HP.
  apply Z.mul_le_mono_nonneg_r; [lia|].
  apply Z.div_le_lower_bound; [exact HP|lia].
Qed.

(** And it is less than one below [x]: on the values,
    [x - 1 < math_Floor x <= x]. *)
Lemma math_Floor_within_one x :
  sf_val (Prim2SF x) - sf_one < sf_val (Prim2SF (math_Floor x))
    <= sf_val (Prim2SF x).
Proof.
  rewrite math_Floor_valid_val.
  pose proof sf_one_pos as HP.
  pose proof (Z.mul_div_le (sf_val (Prim2SF x)) sf_one HP).
  pose proof (Z.mul_succ_div_gt (sf_val (Prim2SF x)) sf_one HP).
  lia.
Qed.

Lemma key_eq_nonzero a b : k1 a <> 0 -> key_eq a b -> a = b.
Proof.
  unfold key_eq.
  destruct a as [[]|[]| |[] m1 e1], b as [[]|[]| |[] m2 e2]; cbn;
    intros H0 (H1 & H2 & H3); try lia; try reflexivity.
  - assert (e1 = e2) by lia. subst. f_equal. lia.
  - subst. f_equal. congruence.
Qed.

(** A float64 without a fractional part is its own floor. *)
Lemma math_Floor_whole_id x : whole x = true -> math_Floor x = x.
Proof.
  intros Hw.
  destruct (isNaN x) eqn:Hn.
  { unfold math_Floor. unfold isNaN in Hn.
    destruct (Prim2SF x); try discriminate. reflexivity. }
  assert (Hv : sf_val (Prim2SF (math_Floor x)) = sf_val (Prim2SF x)).
  { rewrite math_Floor_valid_val.
    destruct (sf_whole_val _ (Prim2SF_valid x) Hw) as [c ->].
    rewrite Z.div_mul; [reflexivity|]. pose proof sf_one_pos. lia. }
  assert (Hn' : isNaN (math_Floor x) = false) by (rewrite math_Floor_NaN; exact Hn).
  destruct (key_val _ _ (Prim2SF_valid (math_Floor x)) (Prim2SF_valid x) Hn' Hn)
    as [_ Heq].
  apply Heq in Hv.
  destruct (Z.eq_dec (k1 (Prim2SF (math_Floor x))) 0) as [Hz|Hnz].
  - (* a zero: returned as it is *)
    unfold math_Floor in *. unfold key_eq in Hv.
    destruct (Prim2SF x) as [s|[]| |[] m e] eqn:E; try reflexivity;
      rewrite Hz in Hv; cbn in Hv; lia.
  - apply Prim2SF_inj, key_eq_nonzero; assumption.
Qed.

(** * The claims *)

(** ** C1 *)

(** C1, as stated, fails: with the single voucher [pct10] and an order of 5
    the voucher is eligible (its score, the floor of 0.5, is 0), yet
    [findBestVoucher] returns the error and no candidate. *)
Lemma C1_zero_score_no_winner :
  scores 5 pct10 0 /\
  findBestVoucher [pct10] 5 (Voucher_zero, 0%float, Some ErrNoVoucher) /\
  forall out, findBestVoucher [pct10] 5 out ->
    out = (Voucher_zero, 0%float, Some ErrNoVoucher).
Proof.
  split; [reflexivity|]. split.
  - apply (findBestVoucherW_seq workerPoolCap [pct10] 5). unfold workerPoolCap. lia.
  - intros out H. apply (findBestVoucherW_none _ _ _ _ H).
    intros v d [<-|[]] Hd. unfold scores in Hd.
    change (calculateDiscount pct10 5) with (0%float, @None error) in Hd.
    injection Hd as <-. reflexivity.
Qed.

(** C1, amended: for every candidate list and context with at least one
    eligible candidate whose score is strictly greater than zero,
    [findBestVoucher] returns, without error, a candidate of the list with
    its own score, and that score is the maximum over the eligible
    candidates: none has a greater score, and every score that is a
    number is at most the winner's. *)
Theorem C1_findBestVoucher_max vs amt :
  (exists v d, In v vs /\ scores amt v d /\ gtb d 0 = true) ->
  (exists out, findBestVoucher vs amt out) /\
  forall out, findBestVoucher vs amt out ->
    exists w s, out = (w, s, None) /\ In w vs /\ scores amt w s /\
      forall v d, In v vs -> scores amt v d ->
        gtb d s = false /\ (isNaN d = false -> (d <=? s)%float = true).
Proof.
  intros Hpos. split; [apply findBestVoucher_total|].
  intros out H.
  destruct (findBestVoucherW_some _ _ _ _ H Hpos)
    as (w & s & -> & Hw & Hs & Hgt & Hmax).
  exists w, s. split; [reflexivity|]. split; [exact Hw|]. split; [exact Hs|].
  intros v' d' Hv Hd. split; [exact (Hmax v' d' Hv Hd)|].
  intros Hn.
  apply not_gtb_leb; [exact Hn|apply (gtb_notNaN _ _ Hgt)|exact (Hmax v' d' Hv Hd)].
Qed.

Lemma C1_scenario_A :
  (exists out, findBestVoucher [flat50; pct20cap90] 500 out) /\
  forall out, findBestVoucher [flat50; pct20cap90] 500 out ->
    exists w s, out = (w, s, None) /\ In w [flat50; pct20cap90] /\ scores 500 w s /\
      forall v d, In v [flat50; pct20cap90] -> scores 500 v d ->
        gtb d s = false /\ (isNaN d = false -> (d <=? s)%float = true).
Proof.
  apply (C1_findBestVoucher_max [flat50; pct20cap90] 500).
  exists pct20cap90, 90%float.
  split; [right; left; reflexivity|]. split; reflexivity.
Defined.

(** ** C2 *)

(** C2, as stated, fails: the voucher [flat0] is eligible at an order of
    500 (it evaluates successfully, to 0), yet [findBestVoucher] returns
    the error. *)
Lemma C2_error_with_eligible :
  scores 500 flat0 0 /\
  findBestVoucher [flat0] 500 (Voucher_zero, 0%float, Some ErrNoVoucher) /\
  forall out, findBestVoucher [flat0] 500 out -> snd out = Some ErrNoVoucher.
Proof.
  split; [reflexivity|]. split.
  - apply (findBestVoucherW_seq workerPoolCap [flat0] 500). unfold workerPoolCap. lia.
  - intros out H. rewrite (findBestVoucherW_none _ _ _ _ H); [reflexivity|].
    intros v d [<-|[]] Hd. unfold scores in Hd.
    change (calculateDiscount flat0 500) with (0%float, @None error) in Hd.
    injection Hd as <-. reflexivity.
Qed.

(** C2, amended: [findBestVoucher] returns a non-nil error if and only if
    no candidate of the list evaluates successfully to a score strictly
    greater than zero; in that case it returns the no-applicable-voucher
    error with the zero Voucher and the score 0. This is so in particular
    when every candidate fails [calculateDiscount]; and the error is never
    returned when a candidate evaluates to a score above zero. *)
Theorem C2_error_iff vs amt :
  (exists out, findBestVoucher vs amt out) /\
  forall out, findBestVoucher vs amt out ->
    (snd out <> None <->
     forall v d, In v vs -> scores amt v d -> gtb d 0 = false) /\
    (snd out <> None -> out = (Voucher_zero, 0%float, Some ErrNoVoucher)) /\
    ((forall v, In v vs -> snd (calculateDiscount v amt) <> None) ->
     out = (Voucher_zero, 0%float, Some ErrNoVoucher)).
Proof.
  split; [apply findBestVoucher_total|].
  intros out H.
  destruct (findBestVoucherW_cases _ _ _ _ H)
    as [[-> Hall]|(w & s & -> & Hw & Hs & Hgt & _)]; cbn [snd].
  - repeat split; auto. discriminate.
  - repeat split.
    + intros Hne. contradiction Hne. reflexivity.
    + intros Hall. rewrite (Hall w s Hw Hs) in Hgt. discriminate.
    + intros Hne. contradiction Hne. reflexivity.
    + intros Hfail. exfalso. apply (Hfail w Hw). unfold scores in Hs.
      rewrite Hs. reflexivity.
Qed.

Lemma C2_scenario_B :
  findBestVoucher [flat10min1000] 500 (Voucher_zero, 0%float, Some ErrNoVoucher) /\
  forall out, findBestVoucher [flat10min1000] 500 out ->
    out = (Voucher_zero, 0%float, Some ErrNoVoucher).
Proof.
  destruct (C2_error_iff [flat10min1000] 500) as [_ H].
  assert (Hfail : forall v, In v [flat10min1000] ->
                    snd (calculateDiscount v 500) <> None).
  { intros v [<-|[]]. discriminate. }
  split.
  - apply (findBestVoucherW_seq workerPoolCap [flat10min1000] 500).
    unfold workerPoolCap. lia.
  - intros out Hout. destruct (H out Hout) as (_ & _ & Hno). exact (Hno Hfail).
Defined.

(** ** C3 *)

(** C3, as stated, fails: the code computes in float64. At the order
    amount [roundsUp], which is 5864062014805333 * 2^-44 exactly (a little
    above 333.3333), and 15 per cent, the exact value of
    orderAmount * 15 / 100 is below 50 and its floor is 49; the float64
    product rounds up to 5000 and [calculateDiscount] returns 50. *)
Lemma C3_rounded_before_floor :
  (roundsUp <? MinOrderAmount pct15)%float = false /\
  Prim2SF roundsUp = S754_finite false 5864062014805333 (-44) /\
  (5864062014805333 * 15) / (100 * 2 ^ 44) = 49 /\
  (roundsUp * float64_of_int64 15)%float = 5000%float /\
  calculateDiscount pct15 roundsUp = (50%float, None).
Proof. repeat split; reflexivity. Qed.

(** C3, amended: for every eligible percentage candidate (the order amount
    is not below the minimum, the fixed amount is absent, the percentage
    is present) [calculateDiscount] returns the floor of the float64 value
    of [orderAmount * float64(percentage) / 100], the product and the
    quotient each rounded to float64, that value being replaced by the cap
    before the floor when a cap is present and exceeded. The floor itself
    is exact: the result has no fractional part and, unless the value is
    NaN, it is not above the value, less than one below it, and the
    greatest float64 without a fractional part that is not above it. *)
Theorem C3_percentage_floor v amt :
  (amt <? MinOrderAmount v)%float = false ->
  NullFloat64.Valid (DiscountAmount v) = false ->
  NullInt64.Valid (DiscountPercentage v) = true ->
  let discount :=
    (amt * float64_of_int64 (NullInt64.Int64 (DiscountPercentage v)) / 100)%float in
  let capped :=
    if NullFloat64.Valid (MaxDiscountAmount v)
    then if gtb discount (NullFloat64.Float64 (MaxDiscountAmount v))
         then NullFloat64.Float64 (MaxDiscountAmount v)
         else discount
    else discount in
  calculateDiscount v amt = (math_Floor capped, None) /\
  whole (math_Floor capped) = true /\
  (isNaN capped = false ->
   (math_Floor capped <=? capped)%float = true /\
   sf_val (Prim2SF capped) - sf_one < sf_val (Prim2SF (math_Floor capped)) /\
   forall z, whole z = true -> (z <=? capped)%float = true ->
     (z <=? math_Floor capped)%float = true).
Proof.
  intros Hmin Hflat Hpct discount capped.
  split; [|split].
  - rewrite (calculateDiscount_not_below _ _ Hmin).
    unfold selectDiscount. rewrite Hflat, Hpct. fold discount.
    unfold capped. destruct (NullFloat64.Valid (MaxDiscountAmount v)); reflexivity.
  - apply math_Floor_whole.
  - intros Hn. split; [apply math_Floor_le, Hn|].
    split; [apply (math_Floor_within_one capped)|].
    intros z. apply math_Floor_greatest.
Qed.

Lemma C3_scenario_C :
  (333 * float64_of_int64 15 / 100)%float = 0x1.8f9999999999ap+5%float /\
  calculateDiscount pct15 333 = (49%float, None) /\
  (49 <=? 0x1.8f9999999999ap+5)%float = true /\
  calculateDiscount pct20cap90 500 = (90%float, None).
Proof.
  split; [reflexivity|].
  destruct (C3_percentage_floor pct15 333 eq_refl eq_refl eq_refl) as (H1 & _ & H3).
  destruct (C3_percentage_floor pct20cap90 500 eq_refl eq_refl eq_refl) as (H4 & _).
  split; [exact H1|]. split; [apply (H3 eq_refl)|exact H4].
Defined.

(** ** C4 *)

(** C4, as stated, fails: the fixed amount 10.5 is floored to 10. *)
Lemma C4_flat_is_floored :
  (333 <? MinOrderAmount flat10_5)%float = false /\
  DiscountAmount flat10_5 = someFloat 10.5 /\
  calculateDiscount flat10_5 333 = (10%float, None) /\
  (10 =? 10.5)%float = false.
Proof. repeat split; reflexivity. Qed.

(** C4, amended: for every eligible fixed-amount candidate
    [calculateDiscount] returns the floor of the candidate's fixed amount:
    the floor of line 97 applies to fixed and percentage discounts alike. *)
Theorem C4_flat_floor v amt :
  (amt <? MinOrderAmount v)%float = false ->
  NullFloat64.Valid (DiscountAmount v) = true ->
  calculateDiscount v amt =
    (math_Floor (NullFloat64.Float64 (DiscountAmount v)), None).
Proof. exact (calculateDiscount_flat v amt). Qed.

Lemma C4_flat50 : calculateDiscount flat50 500 = (50%float, None).
Proof. rewrite (C4_flat_floor flat50 500); reflexivity. Defined.

(** ** C5 *)

(** C5: for every candidate and context [calculateDiscount] fails with the
    minimum-order error exactly when the order amount is strictly below
    the candidate's minimum; on that failure the returned score is the
    zero placeholder and the worker sends no result. *)
Theorem C5_ineligible_iff v amt :
  (snd (calculateDiscount v amt) = Some ErrMinOrder <->
   (amt <? MinOrderAmount v)%float = true) /\
  ((amt <? MinOrderAmount v)%float = true ->
   calculateDiscount v amt = (0%float, Some ErrMinOrder) /\ worker amt v = []).
Proof.
  split.
  - split.
    + destruct (amt <? MinOrderAmount v)%float eqn:E; [reflexivity|].
      rewrite (calculateDiscount_not_below _ _ E).
      destruct (selectDiscount v amt); cbn [snd]; intros H; discriminate H.
    + intros E. rewrite (calculateDiscount_below _ _ E). reflexivity.
  - intros E. pose proof (calculateDiscount_below _ _ E) as H.
    split; [exact H|]. eapply worker_fail; exact H.
Qed.

Lemma C5_scenario_B :
  calculateDiscount flat10min1000 500 = (0%float, Some ErrMinOrder) /\
  worker 500 flat10min1000 = [].
Proof.
  destruct (C5_ineligible_iff flat10min1000 500) as [_ H].
  apply H. reflexivity.
Defined.

(** ** C6 *)

(** C6, as stated, fails twice. A candidate with neither amount set and a
    minimum of 1000 fails, at an order of 500, with the minimum-order
    error and not with the malformed-candidate error. And mixed with the
    valid candidate [flat0], the malformed one is skipped but
    [findBestVoucher] fails all the same. *)
Lemma C6_malformed_below_minimum :
  (NullFloat64.Valid (DiscountAmount malformedMin1000) = false /\
   NullInt64.Valid (DiscountPercentage malformedMin1000) = false /\
   calculateDiscount malformedMin1000 500 = (0%float, Some ErrMinOrder) /\
   ErrMinOrder <> ErrInvalidConfig) /\
  (scores 500 flat0 0 /\
   forall out, findBestVoucher [malformed; flat0] 500 out ->
     out = (Voucher_zero, 0%float, Some ErrNoVoucher)).
Proof.
  split; [repeat split; try reflexivity; exact ErrMinOrder_neq_ErrInvalidConfig|].
  split; [reflexivity|].
  intros out H. apply (findBestVoucherW_none _ _ _ _ H).
  intros v d [<-|[<-|[]]] Hd; unfold scores in Hd.
  - change (calculateDiscount malformed 500)
      with (0%float, Some ErrInvalidConfig) in Hd. discriminate.
  - change (calculateDiscount flat0 500) with (0%float, @None error) in Hd.
    injection Hd as <-. reflexivity.
Qed.

(** C6, amended: for every candidate in which neither the fixed amount nor
    the percentage is set [calculateDiscount] fails: with the
    malformed-candidate error when the order amount is not below the
    candidate's minimum, the minimum being checked first. When such a
    candidate is mixed, in either order, with a valid one whose score is
    above zero, [findBestVoucher] skips the malformed one and returns the
    valid one as the winner, with its score and no error. *)
Theorem C6_malformed v amt :
  NullFloat64.Valid (DiscountAmount v) = false ->
  NullInt64.Valid (DiscountPercentage v) = false ->
  (exists e, calculateDiscount v amt = (0%float, Some e)) /\
  ((amt <? MinOrderAmount v)%float = false ->
   calculateDiscount v amt = (0%float, Some ErrInvalidConfig)) /\
  forall w d vs,
    scores amt w d -> gtb d 0 = true -> vs = [v; w] \/ vs = [w; v] ->
    (exists out, findBestVoucher vs amt out) /\
    forall out, findBestVoucher vs amt out -> out = (w, d, None).
Proof.
  intros Hflat Hpct.
  pose proof (calculateDiscount_neither v amt Hflat Hpct) as Hv.
  split; [eexists; exact Hv|]. split.
  { intros Hmin. rewrite Hv, Hmin. reflexivity. }
  intros w d vs Hw Hgt Hvs. split; [apply findBestVoucher_total|].
  intros out H.
  assert (Hin : In w vs) by (destruct Hvs as [-> | ->]; cbn; auto).
  assert (Honly : forall x s, In x vs -> scores amt x s -> x = w /\ s = d).
  { intros x s Hx Hs.
    assert (Hxw : x = v \/ x = w)
      by (destruct Hvs as [-> | ->]; cbn in Hx; intuition auto).
    destruct Hxw as [-> | ->].
    - unfold scores in Hs. rewrite Hv in Hs. discriminate.
    - unfold scores in Hs, Hw. rewrite Hw in Hs. injection Hs as <-. auto. }
  destruct (findBestVoucherW_some _ _ _ _ H)
    as (w' & s' & -> & Hw' & Hs' & _); [exists w, d; auto|].
  destruct (Honly w' s' Hw' Hs') as [-> ->]. reflexivity.
Qed.

Lemma C6_scenario_D :
  calculateDiscount malformed 500 = (0%float, Some ErrInvalidConfig) /\
  forall out, findBestVoucher [malformed; flat50] 500 out ->
    out = (flat50, 50%float, None).
Proof.
  destruct (C6_malformed malformed 500 eq_refl eq_refl) as (_ & Herr & Hmix).
  split; [apply Herr; reflexivity|].
  apply (Hmix flat50 50%float [malformed; flat50]).
  - reflexivity.
  - reflexivity.
  - left. reflexivity.
Defined.

(** ** C7 *)

(** C7, as stated, fails: when the only delivered result has the score 0
    (the voucher [pct10] at an order of 5), that result is the first
    occurrence of the maximum, but the running best stays the initial
    zero Voucher with 0. *)
Lemma C7_zero_score_not_kept :
  results 5 [pct10] = [result.mk pct10 0] /\
  first_max [result.mk pct10 0] (result.mk pct10 0) /\
  reduce [result.mk pct10 0] = (Voucher_zero, 0%float) /\
  Voucher_zero <> pct10.
Proof.
  split; [reflexivity|]. split; [|split; [reflexivity|discriminate]].
  exists [], []. split; [reflexivity|]. split.
  - intros x [<-|[]]. reflexivity.
  - intros x [].
Qed.

(** C7, amended: the loop starts from the running best made of the zero
    Voucher and the score 0, and replaces it by a delivered result exactly
    when that result's score is strictly greater than the running best's,
    so that the first-seen result is kept on a tie. When some delivered
    score is strictly greater than zero, the final running best is the
    first occurrence of the maximum score in the delivered sequence;
    otherwise it is still the initial one. *)
Theorem C7_reduce_first_max chan :
  (forall r,
     reduce (chan ++ [r]) =
       if gtb (result.Discount r) (snd (reduce chan))
       then (result.Voucher r, result.Discount r)
       else reduce chan) /\
  ((exists r, In r chan /\ gtb (result.Discount r) 0 = true) ->
   exists r, first_max chan r /\
     reduce chan = (result.Voucher r, result.Discount r)) /\
  ((forall r, In r chan -> gtb (result.Discount r) 0 = false) ->
   reduce chan = (Voucher_zero, 0%float)).
Proof.
  split; [intros r; apply reduce_snoc|].
  destruct (reduce_spec chan) as [[Hr Hall]|(r & Hmax & Hgt & Hr)]; split.
  - intros (r & Hin & Hgt). rewrite (Hall r Hin) in Hgt. discriminate.
  - intros _. exact Hr.
  - intros _. exists r. auto.
  - intros Hall. rewrite (Hall r (first_max_In _ _ Hmax)) in Hgt. discriminate.
Qed.

Lemma C7_tie_keeps_first :
  exists r, first_max [result.mk flat50 50; result.mk pct20cap90 90;
                       result.mk flat10min1000 90] r /\
    reduce [result.mk flat50 50; result.mk pct20cap90 90;
            result.mk flat10min1000 90]
      = (result.Voucher r, result.Discount r) /\
    result.Voucher r = pct20cap90.
Proof.
  destruct (C7_reduce_first_max
              [result.mk flat50 50; result.mk pct20cap90 90;
               result.mk flat10min1000 90]) as (_ & H & _).
  destruct H as (r & Hmax & Hr).
  - exists (result.mk flat50 50). split; [left|]; reflexivity.
  - exists r. split; [exact Hmax|]. split; [exact Hr|].
    change (reduce _) with (pct20cap90, 90%float) in Hr.
    injection Hr as Hv _. symmetry. exact Hv.
Defined.

(** ** C8 *)

(** C8, as stated, fails: a fixed amount of -5 evaluates successfully, to
    the negative score -5. *)
Lemma C8_negative_score :
  calculateDiscount flatNeg5 500 = ((-5)%float, None) /\
  ((-5) <? 0)%float = true /\ (0 <=? (-5))%float = false.
Proof. repeat split; reflexivity. Qed.

(** C8, amended: whenever [calculateDiscount] succeeds on a candidate
    whose deciding amounts are non-negative, the score is non-negative.
    The deciding amounts are the fixed amount when it is set; otherwise
    the percentage, the order amount (non-negative and finite) and the cap
    when it is set. *)
Theorem C8_score_nonneg v amt d :
  scores amt v d ->
  (NullFloat64.Valid (DiscountAmount v) = true ->
   (0 <=? NullFloat64.Float64 (DiscountAmount v))%float = true) ->
  (NullFloat64.Valid (DiscountAmount v) = false ->
   (0 <=? amt)%float = true /\ (amt <? infinity)%float = true /\
   0 <= NullInt64.Int64 (DiscountPercentage v) /\
   (NullFloat64.Valid (MaxDiscountAmount v) = true ->
    (0 <=? NullFloat64.Float64 (MaxDiscountAmount v))%float = true)) ->
  (0 <=? d)%float = true.
Proof.
  unfold scores, calculateDiscount. intros Hd Hflat Hpct.
  destruct (amt <? MinOrderAmount v)%float; [discriminate|].
  unfold selectDiscount in Hd.
  destruct (NullFloat64.Valid (DiscountAmount v)).
  - injection Hd as <-. apply math_Floor_ge_zero, Hflat. reflexivity.
  - destruct (Hpct eq_refl) as (H0 & Hfin & Hp & Hcap).
    destruct (NullInt64.Valid (DiscountPercentage v)); [|discriminate].
    injection Hd as <-. apply math_Floor_ge_zero.
    pose proof (percentage_ge_zero amt _ H0 Hfin Hp) as Hraw.
    destruct (NullFloat64.Valid (MaxDiscountAmount v)); cbn [andb]; [|exact Hraw].
    destruct (gtb _ _); [apply Hcap; reflexivity|exact Hraw].
Qed.

Lemma C8_scenario_scores :
  (scores 500 pct20cap90 90 /\ (0 <=? 90)%float = true) /\
  (scores 500 flat50 50 /\ (0 <=? 50)%float = true).
Proof.
  split; (split; [reflexivity|]).
  - apply (C8_score_nonneg pct20cap90 500 90).
    + reflexivity.
    + intros H. discriminate H.
    + intros _. repeat split; try reflexivity. cbn. lia.
  - apply (C8_score_nonneg flat50 500 50).
    + reflexivity.
    + intros _. reflexivity.
    + intros H. discriminate H.
Defined.

(** ** C9 *)

(** C9: for every candidate list and context, with pools of [W1] and [W2]
    slots (one slot at least), a run exists for either pool, and any two
    runs, whatever their schedules and pool sizes, return the same
    winning score and the same error. With [W1 = W2] these are two runs
    of one program. *)
Theorem C9_same_score W1 W2 vs amt :
  (1 <= W1)%nat -> (1 <= W2)%nat ->
  (exists out, findBestVoucherW W1 vs amt out) /\
  (exists out, findBestVoucherW W2 vs amt out) /\
  forall out1 out2,
    findBestVoucherW W1 vs amt out1 -> findBestVoucherW W2 vs amt out2 ->
    snd (fst out1) = snd (fst out2) /\ snd out1 = snd out2.
Proof.
  intros H1 H2.
  split; [eexists; apply findBestVoucherW_seq, H1|].
  split; [eexists; apply findBestVoucherW_seq, H2|].
  intros out1 out2 R1 R2.
  apply findBestVoucherW_inv in R1, R2.
  destruct R1 as (c1 & P1 & ->), R2 as (c2 & P2 & ->).
  apply conclude_perm.
  etransitivity; [apply Permutation_sym; exact P1|exact P2].
Qed.

Lemma C9_one_and_fifty_workers :
  (exists out, findBestVoucherW 1 [flat50; pct20cap90; malformed] 500 out) /\
  (exists out, findBestVoucherW 50 [flat50; pct20cap90; malformed] 500 out) /\
  forall out1 out2,
    findBestVoucherW 1 [flat50; pct20cap90; malformed] 500 out1 ->
    findBestVoucherW 50 [flat50; pct20cap90; malformed] 500 out2 ->
    snd (fst out1) = snd (fst out2) /\ snd out1 = snd out2.
Proof.
  apply (C9_same_score 1 50 [flat50; pct20cap90; malformed] 500); lia.
Defined.

(** ** C10 *)

(** C10, as stated, fails: with both amounts set the fixed amount 7.5 is
    not returned as it is, but floored to 7. *)
Lemma C10_both_set_is_floored :
  (500 <? MinOrderAmount both7_5)%float = false /\
  DiscountAmount both7_5 = someFloat 7.5 /\
  NullInt64.Valid (DiscountPercentage both7_5) = true /\
  calculateDiscount both7_5 500 = (7%float, None) /\
  (7 =? 7.5)%float = false.
Proof. repeat split; reflexivity. Qed.

(** C10, amended: for every eligible candidate in which both the fixed
    amount and the percentage are set, [calculateDiscount] succeeds and
    returns the floor of the fixed amount; the percentage and the cap are
    ignored entirely (any other percentage and cap give the same result),
    and the candidate is not treated as malformed. *)
Theorem C10_both_set v amt :
  (amt <? MinOrderAmount v)%float = false ->
  NullFloat64.Valid (DiscountAmount v) = true ->
  NullInt64.Valid (DiscountPercentage v) = true ->
  calculateDiscount v amt =
    (math_Floor (NullFloat64.Float64 (DiscountAmount v)), None) /\
  forall p c,
    calculateDiscount
      (mkVoucher (Id v) (Code v) (MinOrderAmount v) (DiscountAmount v) p c) amt
    = calculateDiscount v amt.
Proof.
  intros Hmin Hflat _. split; [exact (calculateDiscount_flat v amt Hmin Hflat)|].
  intros p c. rewrite !calculateDiscount_flat; auto.
Qed.

Lemma C10_both7_5 :
  calculateDiscount both7_5 500 = (math_Floor 7.5, None) /\
  forall p c,
    calculateDiscount
      (mkVoucher (Id both7_5) (Code both7_5) (MinOrderAmount both7_5)
         (DiscountAmount both7_5) p c) 500
    = calculateDiscount both7_5 500.
Proof. apply (C10_both_set both7_5 500); reflexivity. Defined.

(** * Further properties *)

(** ** The dispatcher, state by state *)

Section Reachable.
Variable W : nat.
Variable amt : float64.

Lemma steps_bounded s1 s2 :
  steps W amt s1 s2 ->
  (List.length (running s1) <= W)%nat -> (List.length (running s2) <= W)%nat.
Proof.
  induction 1 as [s|s1 s2 s3 H12 _ IH]; [auto|].
  intros H. apply IH. eapply step_bounded; eassumption.
Qed.

Lemma worker_length v : (List.length (worker amt v) <= 1)%nat.
Proof.
  unfold worker. destruct (calculateDiscount v amt) as [d [e|]]; cbn; lia.
Qed.

Lemma step_occupancy s1 s2 :
  step W amt s1 s2 ->
  (List.length (resultChan s2) + List.length (running s2) + List.length (pending s2)
   <= List.length (resultChan s1) + List.length (running s1) + List.length (pending s1))%nat.
Proof.
  intros [v p r c Hlen|p r1 v r2 c]; cbn [resultChan running pending];
    rewrite ?length_app; cbn [List.length]; [lia|].
  pose proof (worker_length v). lia.
Qed.

Lemma steps_occupancy s1 s2 :
  steps W amt s1 s2 ->
  (List.length (resultChan s2) + List.length (running s2) + List.length (pending s2)
   <= List.length (resultChan s1) + List.length (running s1) + List.length (pending s1))%nat.
Proof.
  induction 1 as [s|s1 s2 s3 H12 _ IH]; [lia|].
  apply step_occupancy in H12. lia.
Qed.

Lemma steps_trans s1 s2 s3 :
  steps W amt s1 s2 -> steps W amt s2 s3 -> steps W amt s1 s3.
Proof.
  induction 1 as [s|s1 s2 s' H12 _ IH]; [auto|].
  intros H. eapply steps_step; [exact H12|apply IH, H].
Qed.
End Reachable.

(** X1: in every state the dispatcher reaches, at most [W] goroutines hold
    a slot of the pool; for the pool of [main.go], at most 10. *)
Theorem X1_bounded_workers W amt vs s :
  steps W amt (mkPool vs [] []) s ->
  (List.length (running s) <= W)%nat.
Proof.
  intros H. apply (steps_bounded W amt _ _ H). cbn. lia.
Qed.

Lemma X1_two_started :
  steps workerPoolCap 500 (mkPool [flat50; pct20cap90; pct15] [] [])
    (mkPool [pct15] [flat50; pct20cap90] []) /\
  (List.length (running (mkPool [pct15] [flat50; pct20cap90] [])) <= workerPoolCap)%nat.
Proof.
  assert (H : steps workerPoolCap 500 (mkPool [flat50; pct20cap90; pct15] [] [])
                (mkPool [pct15] [flat50; pct20cap90] [])).
  { eapply steps_step; [apply step_spawn; unfold workerPoolCap; cbn; lia|].
    eapply steps_step; [apply step_spawn; unfold workerPoolCap; cbn; lia|]. constructor. }
  split; [exact H|]. apply (X1_bounded_workers _ _ _ _ H).
Defined.

(** ** One slot: the results arrive in the order of the vouchers *)

Lemma length_le_1_middle {A} (r1 r2 : list A) (v : A) :
  (List.length (r1 ++ v :: r2) <= 1)%nat -> r1 = [] /\ r2 = [].
Proof.
  rewrite length_app. cbn [List.length]. intros H.
  destruct r1, r2; cbn in *; auto; lia.
Qed.

Lemma steps_one_slot amt s1 s2 :
  steps 1 amt s1 s2 ->
  (List.length (running s1) <= 1)%nat ->
  pending s2 = [] -> running s2 = [] ->
  resultChan s2 = total amt s1.
Proof.
  induction 1 as [s|s1 s2 s3 H12 _ IH]; intros Hlen Hp Hr.
  - unfold total. rewrite Hp, Hr. cbn. rewrite app_nil_r. reflexivity.
  - rewrite IH; auto; [|eapply step_bounded; eassumption].
    destruct H12 as [v p r c Hr1|p r1 v r2 c]; unfold total, results;
      cbn [resultChan running pending] in *.
    + destruct r; [|cbn in Hr1; lia]. cbn. rewrite app_nil_r. reflexivity.
    + destruct (length_le_1_middle _ _ _ Hlen) as [-> ->]. cbn.
      rewrite !app_nil_r, app_assoc. reflexivity.
Qed.

Lemma dispatch_one_slot amt vs chan :
  dispatch 1 amt vs chan -> chan = results amt vs.
Proof.
  intros H. apply steps_one_slot in H; cbn; auto.
Qed.

(** ** Results that agree up to their order *)

Lemma same_results_same_score W1 W2 amt vs1 vs2 out1 out2 :
  Permutation (results amt vs1) (results amt vs2) ->
  findBestVoucherW W1 vs1 amt out1 -> findBestVoucherW W2 vs2 amt out2 ->
  snd (fst out1) = snd (fst out2) /\ snd out1 = snd out2.
Proof.
  intros HP R1 R2.
  apply findBestVoucherW_inv in R1, R2.
  destruct R1 as (c1 & P1 & ->), R2 as (c2 & P2 & ->).
  apply conclude_perm.
  etransitivity; [apply Permutation_sym; exact P1|].
  etransitivity; [exact HP|exact P2].
Qed.

Lemma results_filter_succeeds amt vs :
  results amt (filter (succeeds amt) vs) = results amt vs.
Proof.
  unfold results. induction vs as [|v vs IH]; [reflexivity|].
  cbn [filter flat_map]. unfold succeeds at 1, worker at 2.
  destruct (calculateDiscount v amt) as [d [e|]] eqn:E; cbn [snd].
  - exact IH.
  - cbn [flat_map]. rewrite IH. unfold worker. rewrite E. reflexivity.
Qed.

(** X4: with a pool of one slot the goroutines run one after the other:
    [findBestVoucher] has exactly one outcome, that of the results taken
    in the order of the vouchers. *)
Theorem X4_one_slot_in_order vs amt out :
  findBestVoucherW 1 vs amt out <-> out = findBestVoucher_seq vs amt.
Proof.
  split.
  - intros [chan H]. apply dispatch_one_slot in H. subst chan. reflexivity.
  - intros ->. apply findBestVoucherW_seq. lia.
Qed.

(** X5: with two slots or more the winner among tied vouchers depends on
    the schedule: of two vouchers with the same score above zero, either
    one can be returned. *)
Theorem X5_tie_either_wins W a b amt s :
  (2 <= W)%nat -> scores amt a s -> scores amt b s -> gtb s 0 = true ->
  findBestVoucherW W [a; b] amt (a, s, None) /\
  findBestVoucherW W [a; b] amt (b, s, None).
Proof.
  intros HW Ha Hb Hgt.
  assert (Hc : forall x y, conclude (reduce [result.mk x s; result.mk y s]) = (x, s, None)).
  { intros x y. unfold reduce.
    cbn [fold_left reduce_step result.Discount result.Voucher].
    rewrite Hgt. cbn [fold_left reduce_step result.Discount result.Voucher].
    rewrite gtb_irrefl.
    unfold conclude. rewrite (gtb_not_eqb' _ _ Hgt). reflexivity. }
  split.
  - rewrite <- (Hc a b). constructor.
    replace [result.mk a s; result.mk b s] with (results amt [a; b]).
    + apply dispatch_in_order. lia.
    + unfold results. cbn. rewrite (worker_ok _ _ _ Ha), (worker_ok _ _ _ Hb). reflexivity.
  - rewrite <- (Hc b a). constructor. unfold dispatch.
    eapply steps_step; [apply step_spawn; cbn; lia|].
    eapply steps_step; [apply step_spawn; cbn; lia|].
    eapply steps_step; [apply (step_finish W amt [] [a] b [] [])|].
    eapply steps_step; [apply (step_finish W amt [] [] a [] _)|].
    cbn. rewrite (worker_ok _ _ _ Ha), (worker_ok _ _ _ Hb). cbn. constructor.
Qed.

Lemma X5_tie_either_wins_witness :
  flat50 <> flat50b /\
  findBestVoucher [flat50; flat50b] 500 (flat50, 50%float, None) /\
  findBestVoucher [flat50; flat50b] 500 (flat50b, 50%float, None).
Proof.
  split; [discriminate|].
  apply (X5_tie_either_wins workerPoolCap flat50 flat50b 500 50).
  - unfold workerPoolCap. lia.
  - reflexivity.
  - reflexivity.
  - reflexivity.
Defined.

(** X6: when one voucher alone has the greatest score, and that score is
    above zero, every run returns that voucher, whatever the schedule and
    the size of the pool. *)
Theorem X6_unique_max_wins W vs amt w s out :
  In w vs -> scores amt w s -> gtb s 0 = true ->
  (forall v d, In v vs -> scores amt v d ->
     gtb d s = false /\ (v = w \/ (d =? s)%float = false)) ->
  findBestVoucherW W vs amt out -> out = (w, s, None).
Proof.
  intros Hw Hs Hgt Huniq H.
  destruct (findBestVoucherW_some _ _ _ _ H) as (w' & s' & -> & Hw' & Hs' & Hgt' & Hmax).
  { exists w, s. auto. }
  destruct (Huniq w' s' Hw' Hs') as [Hle Hor].
  assert (Heq : s' = s).
  { apply gtb_zero_eq; auto. apply (Hmax w s Hw Hs). }
  subst s'. destruct Hor as [->|Hne]; [reflexivity|].
  exfalso. destruct (gtb_notNaN _ _ Hgt) as [Hn _].
  rewrite (gtb_total s s Hn Hn (gtb_irrefl s) (gtb_irrefl s)) in Hne. discriminate.
Qed.

Lemma X6_unique_max_wins_witness :
  findBestVoucherW 3 [flat50; pct20cap90; malformed] 500
    (findBestVoucher_seq [flat50; pct20cap90; malformed] 500) /\
  findBestVoucher_seq [flat50; pct20cap90; malformed] 500 = (pct20cap90, 90%float, None).
Proof.
  assert (H : findBestVoucherW 3 [flat50; pct20cap90; malformed] 500
                (findBestVoucher_seq [flat50; pct20cap90; malformed] 500))
    by (apply findBestVoucherW_seq; lia).
  split; [exact H|].
  apply (X6_unique_max_wins 3 [flat50; pct20cap90; malformed] 500 pct20cap90 90);
    [right; left; reflexivity|reflexivity|reflexivity| |exact H].
  intros v d [<-|[<-|[<-|[]]]] Hd; unfold scores in Hd.
  - change (calculateDiscount flat50 500) with (50%float, @None error) in Hd.
    injection Hd as <-. split; [reflexivity|right; reflexivity].
  - change (calculateDiscount pct20cap90 500) with (90%float, @None error) in Hd.
    injection Hd as <-. split; [reflexivity|left; reflexivity].
  - discriminate Hd.
Defined.

(** X7: on the empty list [findBestVoucher] returns the error, the zero
    Voucher and 0, and nothing else, whatever the size of the pool. *)
Theorem X7_empty_list W amt out :
  findBestVoucherW W [] amt out <-> out = (Voucher_zero, 0%float, Some ErrNoVoucher).
Proof.
  split.
  - intros H. apply (findBestVoucherW_none _ _ _ _ H). intros v d [].
  - intros ->. apply (findBest_intro W [] amt []). constructor.
Qed.

(** X8: the winning score and the error do not depend on the order of the
    vouchers in the list given. *)
Theorem X8_input_order_irrelevant W1 W2 vs1 vs2 amt out1 out2 :
  Permutation vs1 vs2 ->
  findBestVoucherW W1 vs1 amt out1 -> findBestVoucherW W2 vs2 amt out2 ->
  snd (fst out1) = snd (fst out2) /\ snd out1 = snd out2.
Proof.
  intros HP. apply same_results_same_score.
  unfold results. apply Permutation_flat_map, HP.
Qed.

Lemma X8_swapped :
  snd (fst (findBestVoucher_seq [flat50; pct20cap90] 500))
    = snd (fst (findBestVoucher_seq [pct20cap90; flat50] 500)) /\
  snd (findBestVoucher_seq [flat50; pct20cap90] 500)
    = snd (findBestVoucher_seq [pct20cap90; flat50] 500).
Proof.
  apply (X8_input_order_irrelevant 1 10 [flat50; pct20cap90] [pct20cap90; flat50] 500).
  - apply perm_swap.
  - apply findBestVoucherW_seq. lia.
  - apply findBestVoucherW_seq. lia.
Defined.

(** X9: the vouchers that fail [calculateDiscount] have no effect on the
    winning score and on the error: leaving them out of the list changes
    neither. *)
Theorem X9_failed_vouchers_irrelevant W1 W2 vs amt out1 out2 :
  findBestVoucherW W1 vs amt out1 ->
  findBestVoucherW W2 (filter (succeeds amt) vs) amt out2 ->
  snd (fst out1) = snd (fst out2) /\ snd out1 = snd out2.
Proof.
  apply same_results_same_score. rewrite results_filter_succeeds. reflexivity.
Qed.

Lemma X9_malformed_left_out :
  filter (succeeds 500) [malformed; flat50; flat10min1000] = [flat50] /\
  snd (fst (findBestVoucher_seq [malformed; flat50; flat10min1000] 500))
    = snd (fst (findBestVoucher_seq [flat50] 500)) /\
  snd (findBestVoucher_seq [malformed; flat50; flat10min1000] 500)
    = snd (findBestVoucher_seq [flat50] 500).
Proof.
  split; [reflexivity|].
  apply (X9_failed_vouchers_irrelevant 10 10 [malformed; flat50; flat10min1000] 500).
  - apply findBestVoucherW_seq. lia.
  - apply (findBestVoucherW_seq 10 [flat50] 500). lia.
Defined.

(** ** The score *)

(** X12: the score is the selected amount (the fixed amount, or the capped
    percentage amount) rounded down to a whole number: it has no
    fractional part, it is not above the amount and less than one below
    it, and it is the greatest such float64; an amount that is whole is
    returned unchanged. *)
Theorem X12_score_is_floor v amt a d :
  selectDiscount v amt = Some a -> scores amt v d ->
  whole d = true /\
  isNaN d = isNaN a /\
  (isNaN a = false ->
   (d <=? a)%float = true /\
   sf_val (Prim2SF a) - sf_one < sf_val (Prim2SF d) /\
   forall z, whole z = true -> (z <=? a)%float = true -> (z <=? d)%float = true) /\
  (whole a = true -> d = a).
Proof.
  intros Ha Hd. destruct (scores_floor _ _ _ Hd) as (a' & Ha' & ->).
  rewrite Ha in Ha'. injection Ha' as <-.
  split; [apply math_Floor_whole|]. split; [apply math_Floor_NaN|].
  split; [|apply math_Floor_whole_id].
  intros Hn. split; [apply math_Floor_le, Hn|].
  split; [apply (math_Floor_within_one a)|].
  intros z. apply math_Floor_greatest.
Qed.

Lemma X12_score_is_floor_witness :
  selectDiscount pct15 333 = Some 0x1.8f9999999999ap+5%float /\
  scores 333 pct15 49 /\
  whole 49 = true /\ (49 <=? 0x1.8f9999999999ap+5)%float = true.
Proof.
  assert (Ha : selectDiscount pct15 333 = Some 0x1.8f9999999999ap+5%float)
    by reflexivity.
  assert (Hd : scores 333 pct15 49) by reflexivity.
  destruct (X12_score_is_floor pct15 333 _ 49 Ha Hd) as (Hw & _ & Hle & _).
  split; [exact Ha|]. split; [exact Hd|]. split; [exact Hw|].
  apply Hle. reflexivity.
Defined.

(** X13: the score is never above the amount it is computed from: not above
    the fixed amount when that is set; otherwise not above the float64
    value of [orderAmount * float64(percentage) / 100] as line 87 computes
    it, the product and the quotient each rounded to the nearest float64
    (the score can be above the exact quotient, see C3), and not above the
    cap when a cap is set. *)
Theorem X13_score_not_above v amt d :
  scores amt v d ->
  (NullFloat64.Valid (DiscountAmount v) = true ->
   gtb d (NullFloat64.Float64 (DiscountAmount v)) = false) /\
  (NullFloat64.Valid (DiscountAmount v) = false ->
   gtb d (amt * float64_of_int64 (NullInt64.Int64 (DiscountPercentage v)) / 100)%float
     = false /\
   (NullFloat64.Valid (MaxDiscountAmount v) = true ->
    gtb d (NullFloat64.Float64 (MaxDiscountAmount v)) = false)).
Proof.
  intros H. destruct (scores_floor _ _ _ H) as (a & Ha & ->).
  unfold selectDiscount in Ha.
  destruct (NullFloat64.Valid (DiscountAmount v)).
  - injection Ha as <-. split; [|discriminate].
    intros _. apply math_Floor_not_above_self.
  - split; [discriminate|]. intros _.
    destruct (NullInt64.Valid (DiscountPercentage v)); [|discriminate].
    injection Ha as <-.
    set (raw := (amt * float64_of_int64 (NullInt64.Int64 (DiscountPercentage v)) / 100)%float).
    set (cap := NullFloat64.Float64 (MaxDiscountAmount v)).
    destruct (NullFloat64.Valid (MaxDiscountAmount v)); cbn [andb].
    + destruct (gtb raw cap) eqn:E.
      * split; [|intros _; apply math_Floor_not_above_self].
        destruct (gtb_notNaN _ _ E) as [_ Hc].
        apply math_Floor_not_above, gtb_asym, E.
      * split; [apply math_Floor_not_above_self|].
        intros _. apply math_Floor_not_above, E.
    + split; [apply math_Floor_not_above_self|discriminate].
Qed.

Lemma X13_capped :
  scores 500 pct20cap90 90 /\
  gtb 90 (500 * float64_of_int64 20 / 100)%float = false /\
  gtb 90 90 = false.
Proof.
  assert (H : scores 500 pct20cap90 90) by reflexivity.
  destruct (X13_score_not_above pct20cap90 500 90 H) as [_ Hp].
  destruct (Hp eq_refl) as [Hraw Hcap].
  split; [exact H|]. split; [exact Hraw|exact (Hcap eq_refl)].
Defined.

(** X14: an eligible candidate whose fixed amount is a whole number scores
    exactly that amount. *)
Theorem X14_whole_fixed_amount_kept v amt :
  (amt <? MinOrderAmount v)%float = false ->
  NullFloat64.Valid (DiscountAmount v) = true ->
  whole (NullFloat64.Float64 (DiscountAmount v)) = true ->
  calculateDiscount v amt = (NullFloat64.Float64 (DiscountAmount v), None).
Proof.
  intros Hmin Hflat Hw. rewrite (calculateDiscount_flat _ _ Hmin Hflat).
  rewrite (math_Floor_whole_id _ Hw). reflexivity.
Qed.

Lemma X14_whole_fixed_amount_kept_witness :
  calculateDiscount flat50 500 = (50%float, None).
Proof. apply (X14_whole_fixed_amount_kept flat50 500); reflexivity. Defined.

(** X11: during the reduction the running maximum is never NaN, never below
    zero and never decreases. *)
Theorem X11_running_max_monotone l1 l2 :
  (0 <=? snd (reduce l1))%float = true /\
  (snd (reduce l1) <=? snd (reduce (l1 ++ l2)))%float = true.
Proof.
  assert (H0 : forall l, (0 <=? snd (reduce l))%float = true).
  { intros l. destruct (reduce_spec l) as [[-> _]|(r & _ & Hgt & ->)]; cbn [snd].
    - reflexivity.
    - apply leb_of_gtb, Hgt. }
  split; [apply H0|].
  unfold reduce at 2. rewrite fold_left_app. fold (reduce l1).
  destruct (reduce l1) as [b m] eqn:E. cbn [snd].
  destruct (fold_reduce_spec l2 b m) as [[-> _]|(_ & r & _ & _ & -> & Hgt & _)];
    cbn [snd].
  - apply leb_refl_notNaN. specialize (H0 l1). rewrite E in H0. cbn in H0.
    apply leb_key in H0. tauto.
  - apply leb_of_gtb, Hgt.
Qed.

(** A floor above zero is +Inf or a whole number. *)
Lemma math_Floor_pos_wholeNumber x :
  gtb (math_Floor x) 0 = true ->
  math_Floor x = infinity \/ wholeNumber (math_Floor x) = true.
Proof.
  intros Hgt. pose proof (math_Floor_whole x) as Hw.
  apply gtb_key in Hgt. destruct Hgt as (Hn & _ & Hlt).
  unfold wholeNumber, isNaN in *. rewrite Hw, andb_true_r.
  destruct (Prim2SF (math_Floor x)) as [s|[|]| |s m e] eqn:E; cbn [sf_finite];
    try discriminate Hn; auto.
  - exfalso. revert Hlt. rewrite Prim2SF_zero. unfold key_lt. cbn. lia.
  - left. apply Prim2SF_inj. rewrite E. reflexivity.
Qed.

Lemma findBestVoucherW_winner W vs amt w s :
  findBestVoucherW W vs amt (w, s, None) ->
  In w vs /\ scores amt w s /\ (1 <=? s)%float = true /\
  (s = infinity \/ wholeNumber s = true) /\
  forall v d, In v vs -> scores amt v d -> gtb d s = false.
Proof.
  intros H.
  destruct (findBestVoucherW_cases _ _ _ _ H)
    as [[E _]|(w' & s' & E & Hw & Hs & Hgt & Hmax)]; [discriminate|].
  injection E as <- <-.
  destruct (scores_floor _ _ _ Hs) as (a & _ & Ea).
  split; [exact Hw|]. split; [exact Hs|]. rewrite Ea in Hgt.
  split; [rewrite Ea; apply math_Floor_pos_ge_one, Hgt|].
  split; [rewrite Ea; apply math_Floor_pos_wholeNumber, Hgt|exact Hmax].
Qed.

(** X10: a voucher that [findBestVoucher] returns without error is one of
    the vouchers given, it evaluates successfully to the score returned,
    and that score is at least 1 and is either +Inf (the score of a fixed
    amount, a product or a cap that is +Inf) or a whole number, finite and
    without a fractional part. *)
Theorem X10_winner_sound W vs amt w s :
  findBestVoucherW W vs amt (w, s, None) ->
  In w vs /\ scores amt w s /\ (1 <=? s)%float = true /\
  (s = infinity \/ wholeNumber s = true).
Proof.
  intros H. destruct (findBestVoucherW_winner _ _ _ _ _ H) as (H1 & H2 & H3 & H4 & _).
  auto.
Qed.

Lemma X10_scenario_A_winner :
  In pct20cap90 [flat50; pct20cap90] /\ scores 500 pct20cap90 90 /\
  (1 <=? 90)%float = true /\ (90%float = infinity \/ wholeNumber 90 = true).
Proof.
  apply (X10_winner_sound 10 [flat50; pct20cap90] 500 pct20cap90 90).
  apply (findBestVoucherW_seq 10 [flat50; pct20cap90] 500). lia.
Defined.

(** Both cases of X10 occur: a fixed amount of +Inf wins with +Inf. *)
Example infinite_fixed_amount_wins :
  findBestVoucherW 10 [flat50; mkVoucher 13 "FLATINF" 0 (someFloat infinity) noInt noFloat]
    500 (mkVoucher 13 "FLATINF" 0 (someFloat infinity) noInt noFloat, infinity, None) /\
  wholeNumber infinity = false.
Proof.
  split; [|reflexivity].
  apply (findBestVoucherW_seq 10
           [flat50; mkVoucher 13 "FLATINF" 0 (someFloat infinity) noInt noFloat] 500).
  lia.
Qed.

(** ** findBestVoucher, goroutine by goroutine *)

Section FineFacts.
Variable W : nat.
Variable cap : nat.
Variable amt : float64.

Lemma fsteps_trans s1 s2 s3 :
  fsteps W cap amt s1 s2 -> fsteps W cap amt s2 s3 -> fsteps W cap amt s1 s3.
Proof.
  induction 1 as [s|s1 s2 s' H12 _ IH]; [auto|].
  intros H. eapply fsteps_step; [exact H12|apply IH, H].
Qed.

Lemma fsteps_one s1 s2 : fstep W cap amt s1 s2 -> fsteps W cap amt s1 s2.
Proof. intros H. eapply fsteps_step; [exact H|constructor]. Qed.

Lemma fstep_fuel s1 s2 : fstep W cap amt s1 s2 -> (ffuel s2 < ffuel s1)%nat.
Proof.
  intros [v p w l d c cl b lg H|p w1 v w2 l d c cl b lg H|p w l1 v l2 d c cl b lg
         |p w l d1 v d2 c cl b lg|c b lg|w l d r c cl b lg];
    unfold ffuel; cbn [f_pending f_working f_leaving f_released f_chan f_closed];
    rewrite ?length_app; cbn [List.length]; rewrite ?length_app; try lia.
  pose proof (worker_length amt v). lia.
Qed.

Lemma fstep_occ s1 s2 : fstep W cap amt s1 s2 -> (focc s2 <= focc s1)%nat.
Proof.
  intros [v p w l d c cl b lg H|p w1 v w2 l d c cl b lg H|p w l1 v l2 d c cl b lg
         |p w l d1 v d2 c cl b lg|c b lg|w l d r c cl b lg];
    unfold focc; cbn [f_pending f_working f_chan];
    rewrite ?length_app; cbn [List.length]; rewrite ?length_app; try lia.
  pose proof (worker_length amt v). lia.
Qed.

Lemma app_cons_not_nil {A} (l1 l2 : list A) (x : A) : l1 ++ x :: l2 <> [].
Proof. destruct l1; discriminate. Qed.

Lemma fstep_closed_inv s1 s2 :
  fstep W cap amt s1 s2 -> fclosed_inv s1 -> fclosed_inv s2.
Proof.
  unfold fclosed_inv.
  intros [v p w l d c cl b lg H|p w1 v w2 l d c cl b lg H|p w l1 v l2 d c cl b lg
         |p w l d1 v d2 c cl b lg|c b lg|w l d r c cl b lg];
    cbn [f_pending f_working f_leaving f_released f_closed]; intros Hinv Hcl;
    try (destruct (Hinv Hcl) as (Hp & Hw & Hl & Hd));
    try discriminate; auto.
  - contradiction (app_cons_not_nil _ _ _ Hw).
  - contradiction (app_cons_not_nil _ _ _ Hl).
  - contradiction (app_cons_not_nil _ _ _ Hd).
Qed.

Lemma fsteps_inv s1 s2 :
  fsteps W cap amt s1 s2 ->
  fclosed_inv s1 -> fclosed_inv s2 /\ (focc s2 <= focc s1)%nat.
Proof.
  induction 1 as [s|s1 s2 s3 H12 _ IH]; intros Hinv; [auto|].
  destruct (IH (fstep_closed_inv _ _ H12 Hinv)) as [H1 H2].
  split; [exact H1|]. apply fstep_occ in H12. lia.
Qed.

(** A state that is not final can step, as long as the buffer has room
    for the vouchers that may still send. *)
Lemma fstep_progress s :
  (1 <= W)%nat -> (focc s <= cap)%nat -> fclosed_inv s ->
  fine_final s \/ exists s', fstep W cap amt s s'.
Proof.
  intros HW Hocc Hinv. destruct s as [p w l d c cl b lg].
  unfold focc, fclosed_inv, fine_final in *.
  cbn [f_pending f_working f_leaving f_released f_chan f_closed] in *.
  destruct d as [|v d].
  2:{ right. eexists. apply (fstep_done W cap amt p w l [] v d). }
  destruct l as [|v l].
  2:{ right. eexists. apply (fstep_release W cap amt p w [] v l). }
  destruct w as [|v w].
  2:{ right. eexists. apply (fstep_act W cap amt p [] v w).
      right. cbn [List.length] in Hocc. lia. }
  destruct p as [|v p].
  2:{ right. eexists. apply fstep_spawn. cbn. lia. }
  destruct cl.
  - destruct c as [|r c]; [left; auto|].
    right. eexists. apply fstep_recv.
  - right. eexists. apply fstep_close.
Qed.

Lemma fsteps_complete :
  (1 <= W)%nat ->
  forall n s, (ffuel s <= n)%nat -> (focc s <= cap)%nat -> fclosed_inv s ->
    exists s', fsteps W cap amt s s' /\ fine_final s'.
Proof.
  intros HW. induction n as [|n IH]; intros s Hn Hocc Hinv.
  - destruct (fstep_progress s HW Hocc Hinv) as [Hf|[s' Hs]].
    + exists s. split; [constructor|exact Hf].
    + apply fstep_fuel in Hs. lia.
  - destruct (fstep_progress s HW Hocc Hinv) as [Hf|[s' Hs]].
    + exists s. split; [constructor|exact Hf].
    + destruct (IH s') as (s'' & Hrun & Hfin).
      * apply fstep_fuel in Hs. lia.
      * apply fstep_occ in Hs. lia.
      * eapply fstep_closed_inv; eassumption.
      * exists s''. split; [eapply fsteps_step; eassumption|exact Hfin].
Qed.

(** The calls made and those still to be made. *)
Lemma fstep_log s1 s2 :
  fstep W cap amt s1 s2 ->
  Permutation (f_log s1 ++ warnings amt (f_working s1) ++ warnings amt (f_pending s1))
              (f_log s2 ++ warnings amt (f_working s2) ++ warnings amt (f_pending s2)).
Proof.
  unfold warnings.
  intros [v p w l d c cl b lg H|p w1 v w2 l d c cl b lg H|p w l1 v l2 d c cl b lg
         |p w l d1 v d2 c cl b lg|c b lg|w l d r c cl b lg];
    cbn [f_log f_working f_pending]; try reflexivity.
  - rewrite flat_map_app. cbn [flat_map]. rewrite app_nil_r, <- !app_assoc.
    reflexivity.
  - rewrite !flat_map_app. cbn [flat_map]. rewrite <- !app_assoc.
    apply Permutation_app_head, Permutation_app_swap_app.
Qed.

Lemma fsteps_log s1 s2 :
  fsteps W cap amt s1 s2 ->
  Permutation (f_log s1 ++ warnings amt (f_working s1) ++ warnings amt (f_pending s1))
              (f_log s2 ++ warnings amt (f_working s2) ++ warnings amt (f_pending s2)).
Proof.
  induction 1 as [s|s1 s2 s3 H12 _ IH]; [reflexivity|].
  etransitivity; [apply fstep_log; exact H12|exact IH].
Qed.

(** *** From the steps of the goroutines to the atomic steps *)

Lemma steps_snoc s1 s2 s3 :
  steps W amt s1 s2 -> step W amt s2 s3 -> steps W amt s1 s3.
Proof.
  intros H12 H23. eapply steps_trans; [exact H12|].
  eapply steps_step; [exact H23|constructor].
Qed.

Lemma fstep_sim vs s1 s2 :
  fstep W cap amt s1 s2 -> fsim W amt vs s1 -> fsim W amt vs s2.
Proof.
  unfold fsim.
  intros [v p w l d c cl b lg H|p w1 v w2 l d c cl b lg H|p w l1 v l2 d c cl b lg
         |p w l d1 v d2 c cl b lg|c b lg|w l d r c cl b lg];
    cbn [f_pending f_working f_chan f_best]; intros (rc & Hrun & Hb);
    try (exists rc; split; assumption).
  - exists rc. split; [|exact Hb].
    eapply steps_snoc; [exact Hrun|]. apply step_spawn. lia.
  - exists rc. split; [|exact Hb].
    rewrite app_assoc. eapply steps_snoc; [exact Hrun|]. apply step_finish.
  - exists (rc ++ [r]). split.
    + rewrite <- app_assoc. exact Hrun.
    + rewrite fold_left_app, <- Hb. reflexivity.
Qed.

Lemma fsteps_sim vs s1 s2 :
  fsteps W cap amt s1 s2 -> fsim W amt vs s1 -> fsim W amt vs s2.
Proof.
  induction 1 as [s|s1 s2 s3 H12 _ IH]; [auto|].
  intros H. apply IH. eapply fstep_sim; eassumption.
Qed.

(** *** From the atomic steps to the steps of the goroutines *)

Lemma step_fine s1 s2 lg :
  step W amt s1 s2 ->
  (List.length (resultChan s1) + List.length (running s1) + List.length (pending s1)
   <= cap)%nat ->
  exists lg', fsteps W cap amt (fine_of s1 lg) (fine_of s2 lg').
Proof.
  unfold fine_of.
  intros [v p r c H|p r1 v r2 c]; cbn [pending running resultChan]; intros Hocc.
  - exists lg. apply fsteps_one. apply fstep_spawn. cbn. lia.
  - exists (lg ++ worker_log amt v).
    eapply fsteps_step.
    { apply fstep_act. right. rewrite length_app in Hocc. cbn in Hocc. lia. }
    eapply fsteps_step; [apply (fstep_release W cap amt p (r1 ++ r2) [] v [])|].
    eapply fsteps_step; [apply (fstep_done W cap amt p (r1 ++ r2) [] [] v [])|].
    constructor.
Qed.

Lemma steps_fine s1 s2 :
  steps W amt s1 s2 -> forall lg,
  (List.length (resultChan s1) + List.length (running s1) + List.length (pending s1)
   <= cap)%nat ->
  exists lg', fsteps W cap amt (fine_of s1 lg) (fine_of s2 lg').
Proof.
  induction 1 as [s|s1 s2 s3 H12 _ IH]; intros lg Hocc.
  - exists lg. constructor.
  - destruct (step_fine _ _ lg H12 Hocc) as [lg1 H1].
    destruct (IH lg1) as [lg' H']; [apply step_occupancy in H12; lia|].
    exists lg'. eapply fsteps_trans; eassumption.
Qed.

(** With every goroutine done, the loop receives the whole buffer. *)
Lemma fsteps_drain c : forall b lg,
  fsteps W cap amt (mkFine [] [] [] [] c true b lg)
    (mkFine [] [] [] [] [] true (fold_left reduce_step c b) lg).
Proof.
  induction c as [|r c IH]; intros b lg; [constructor|].
  eapply fsteps_step; [apply fstep_recv|]. apply IH.
Qed.
End FineFacts.

Lemma fine_init_inv vs : fclosed_inv (fine_init vs) /\ focc (fine_init vs) = List.length vs.
Proof. split; [intros H; discriminate H|reflexivity]. Qed.

Lemma fine_reachable_inv W cap amt vs s :
  fsteps W cap amt (fine_init vs) s ->
  fclosed_inv s /\ (focc s <= List.length vs)%nat.
Proof.
  intros H. destruct (fine_init_inv vs) as [H1 H2].
  destruct (fsteps_inv _ _ _ _ _ H H1) as [H3 H4]. split; [exact H3|lia].
Qed.

Lemma fine_init_sim W amt vs : fsim W amt vs (fine_init vs).
Proof. exists []. split; [constructor|reflexivity]. Qed.

(** What a call returns, the goroutines taken step by step, is an outcome
    of the atomic steps. *)
Lemma fineOutcome_sound W cap vs amt out log :
  fineOutcome W cap vs amt out log ->
  findBestVoucherW W vs amt out /\ Permutation (warnings amt vs) log.
Proof.
  intros (s & Hrun & [Hcl Hch] & -> & ->).
  destruct (fine_reachable_inv _ _ _ _ _ Hrun) as [Hinv _].
  destruct (Hinv Hcl) as (Hp & Hw & _ & _).
  split.
  - destruct (fsteps_sim _ _ _ _ _ _ Hrun (fine_init_sim W amt vs)) as (rc & Hc & Hb).
    rewrite Hp, Hw, Hch, app_nil_r in Hc. rewrite Hb.
    apply (findBest_intro W vs amt rc). exact Hc.
  - apply fsteps_log in Hrun. cbn [fine_init f_log f_working f_pending] in Hrun.
    rewrite Hp, Hw in Hrun. cbn in Hrun. rewrite app_nil_r in Hrun. exact Hrun.
Qed.

(** And every outcome of the atomic steps is returned by some run of the
    goroutines, when the buffer has room for all the vouchers. *)
Lemma fineOutcome_complete W cap vs amt out :
  (List.length vs <= cap)%nat ->
  findBestVoucherW W vs amt out -> exists log, fineOutcome W cap vs amt out log.
Proof.
  intros Hcap [chan Hd].
  destruct (steps_fine W cap amt _ _ Hd []) as [lg Hrun]; [cbn; lia|].
  unfold fine_of in Hrun. cbn [pending running resultChan] in Hrun.
  exists lg.
  exists (mkFine [] [] [] [] [] true
            (fold_left reduce_step chan (Voucher_zero, 0%float)) lg).
  split; [|split; [split; reflexivity|split; reflexivity]].
  eapply fsteps_trans; [exact Hrun|].
  eapply fsteps_step; [apply fstep_close|]. apply fsteps_drain.
Qed.

(** X2: whenever a goroutine is about to send its result, or to return on
    an error, [resultChan] holds fewer results than there are vouchers,
    also while goroutines that have already sent still hold their slot:
    with the capacity [len(vouchers)] of line 117 the buffer has room and
    the send goes through at once. *)
Theorem X2_send_finds_room W cap amt vs s w1 v w2 :
  fsteps W cap amt (fine_init vs) s ->
  f_working s = w1 ++ v :: w2 ->
  (List.length (f_chan s) < List.length vs)%nat /\
  ((List.length vs <= cap)%nat ->
   exists s', fstep W cap amt s s' /\
     f_working s' = w1 ++ w2 /\ f_chan s' = f_chan s ++ worker amt v).
Proof.
  intros Hrun Hw.
  destruct (fine_reachable_inv _ _ _ _ _ Hrun) as [_ Hocc].
  unfold focc in Hocc. rewrite Hw, length_app in Hocc. cbn [List.length] in Hocc.
  split; [lia|]. intros Hcap.
  destruct s as [p w l d c cl b lg]. cbn [f_working f_chan] in *. subst w.
  eexists. split; [apply fstep_act; right; lia|]. cbn. auto.
Qed.

Lemma X2_second_sends_before_first_releases :
  fsteps workerPoolCap 2 500 (fine_init [flat50; pct20cap90])
    (mkFine [] [pct20cap90] [flat50] [] [result.mk flat50 50] false
       (Voucher_zero, 0%float) []) /\
  (List.length [result.mk flat50 50] < List.length [flat50; pct20cap90])%nat /\
  exists s',
    fstep workerPoolCap 2 500
      (mkFine [] [pct20cap90] [flat50] [] [result.mk flat50 50] false
         (Voucher_zero, 0%float) []) s' /\
    f_working s' = [] /\
    f_chan s' = [result.mk flat50 50; result.mk pct20cap90 90].
Proof.
  assert (H : fsteps workerPoolCap 2 500 (fine_init [flat50; pct20cap90])
                (mkFine [] [pct20cap90] [flat50] [] [result.mk flat50 50] false
                   (Voucher_zero, 0%float) [])).
  { eapply fsteps_step; [apply fstep_spawn; unfold workerPoolCap; cbn; lia|].
    eapply fsteps_step; [apply fstep_spawn; unfold workerPoolCap; cbn; lia|].
    eapply fsteps_step.
    { apply (fstep_act workerPoolCap 2 500 [] [] flat50 [pct20cap90]).
      right. cbn. lia. }
    constructor. }
  split; [exact H|].
  destruct (X2_send_finds_room _ _ _ _ _ [] pct20cap90 [] H eq_refl) as [Hlt Hstep].
  split; [exact Hlt|]. apply Hstep. cbn. lia.
Defined.

(** No run of the steps goes on for ever. *)
Lemma fstep_wf W cap amt s : Acc (fun s2 s1 => fstep W cap amt s1 s2) s.
Proof.
  remember (ffuel s) as n eqn:E. revert s E.
  induction n as [n IH] using lt_wf_ind. intros s ->.
  constructor. intros s' Hs.
  apply (IH (ffuel s')); [apply (fstep_fuel _ _ _ _ _ Hs)|reflexivity].
Qed.

(** X3: with one slot or more and a buffer with room for every voucher (as
    made at line 117), a call of [findBestVoucher] neither blocks for good
    nor runs for ever: every state it reaches is final (the channel closed
    and drained, the function returns) or has a step to take, a send that
    finds the buffer full not being one; no sequence of steps from it is
    infinite, each step using up some of a finite fuel; and from every
    state it reaches the end can be reached. *)
Theorem X3_no_deadlock W cap amt vs s :
  (1 <= W)%nat -> (List.length vs <= cap)%nat ->
  fsteps W cap amt (fine_init vs) s ->
  (fine_final s \/ exists s', fstep W cap amt s s') /\
  Acc (fun s2 s1 => fstep W cap amt s1 s2) s /\
  (forall s', fstep W cap amt s s' -> (ffuel s' < ffuel s)%nat) /\
  (exists s', fsteps W cap amt s s' /\ fine_final s').
Proof.
  intros HW Hcap Hrun.
  destruct (fine_reachable_inv _ _ _ _ _ Hrun) as [Hinv Hocc].
  assert (Hocc' : (focc s <= cap)%nat) by lia.
  split; [apply fstep_progress; assumption|].
  split; [apply fstep_wf|].
  split; [intros s'; apply fstep_fuel|].
  apply (fsteps_complete W cap amt HW (ffuel s) s); auto.
Qed.

Lemma X3_sent_not_released_completes :
  (fine_final (mkFine [] [pct20cap90] [flat50] [] [result.mk flat50 50] false
                 (Voucher_zero, 0%float) []) \/
   exists s',
     fstep workerPoolCap 2 500
       (mkFine [] [pct20cap90] [flat50] [] [result.mk flat50 50] false
          (Voucher_zero, 0%float) []) s') /\
  Acc (fun s2 s1 => fstep workerPoolCap 2 500 s1 s2)
    (mkFine [] [pct20cap90] [flat50] [] [result.mk flat50 50] false
       (Voucher_zero, 0%float) []) /\
  (forall s',
     fstep workerPoolCap 2 500
       (mkFine [] [pct20cap90] [flat50] [] [result.mk flat50 50] false
          (Voucher_zero, 0%float) []) s' ->
     (ffuel s' < 8)%nat) /\
  (exists s',
     fsteps workerPoolCap 2 500
       (mkFine [] [pct20cap90] [flat50] [] [result.mk flat50 50] false
          (Voucher_zero, 0%float) []) s' /\ fine_final s').
Proof.
  apply (X3_no_deadlock workerPoolCap 2 500 [flat50; pct20cap90]).
  - unfold workerPoolCap. lia.
  - cbn. lia.
  - eapply fsteps_step; [apply fstep_spawn; unfold workerPoolCap; cbn; lia|].
    eapply fsteps_step; [apply fstep_spawn; unfold workerPoolCap; cbn; lia|].
    eapply fsteps_step.
    { apply (fstep_act workerPoolCap 2 500 [] [] flat50 [pct20cap90]).
      right. cbn. lia. }
    constructor.
Defined.

Lemma app_cons_singleton {A} (a : list A) x b y :
  a ++ x :: b = [y] -> a = [] /\ x = y /\ b = [].
Proof.
  destruct a as [|z a]; cbn; intros E.
  - injection E as -> ->. auto.
  - destruct a; discriminate E.
Qed.

(** The room in the buffer is what X3 rests on: with one slot and a
    buffer of one result, three vouchers that all succeed lead to a state
    that is not final and has no step. The second goroutine cannot send,
    the loop cannot start the third, and the reduction has not begun. *)
Example small_buffer_blocks :
  let s := mkFine [pct20cap90] [flat50b] [] [] [result.mk flat50 50] false
             (Voucher_zero, 0%float) [] in
  fsteps 1 1 500 (fine_init [flat50; flat50b; pct20cap90]) s /\
  ~ fine_final s /\
  forall s', ~ fstep 1 1 500 s s'.
Proof.
  cbv zeta. split; [|split].
  - eapply fsteps_step; [apply fstep_spawn; cbn; lia|].
    eapply fsteps_step.
    { apply (fstep_act 1 1 500 [flat50b; pct20cap90] [] flat50 []).
      right. cbn. lia. }
    eapply fsteps_step; [apply (fstep_release 1 1 500 _ [] [] flat50 [])|].
    eapply fsteps_step; [apply (fstep_done 1 1 500 _ [] [] [] flat50 [])|].
    eapply fsteps_step; [apply fstep_spawn; cbn; lia|].
    constructor.
  - intros [H _]. discriminate H.
  - intros s' H. inversion H as
      [v p w l d c cl b lg Hroom
      |p w1 v w2 l d c cl b lg Hroom Hs
      |p w l1 v l2 d c cl b lg Hs
      |p w l d1 v d2 c cl b lg Hs
      |c b lg|w l d r c cl b lg].
    + cbn in Hroom. lia.
    + match goal with
      | E : w1 ++ v :: w2 = [flat50b] |- _ =>
          apply app_cons_singleton in E; destruct E as (_ & -> & _)
      end.
      destruct Hroom as [Hroom|Hroom]; [discriminate Hroom|cbn in Hroom; lia].
    + match goal with
      | E : l1 ++ v :: l2 = [] |- _ => destruct l1; discriminate E
      end.
    + match goal with
      | E : d1 ++ v :: d2 = [] |- _ => destruct d1; discriminate E
      end.
Qed.

(** X20: taking each goroutine's evaluation, send and release as one step,
    as the statements about [findBestVoucher] do, loses and adds nothing:
    when the buffer has room for every voucher, what a call returns with
    the send, the release of the slot, [wg.Done], the close and the
    receives of the reduction loop interleaved as separate steps is
    exactly an outcome of the atomic steps. *)
Theorem X20_atomic_steps_exact W cap vs amt out :
  (List.length vs <= cap)%nat ->
  ((exists log, fineOutcome W cap vs amt out log) <-> findBestVoucherW W vs amt out).
Proof.
  intros Hcap. split.
  - intros [log H]. apply (fineOutcome_sound _ _ _ _ _ _ H).
  - apply fineOutcome_complete, Hcap.
Qed.

Lemma X20_scenario_A :
  (exists log,
     fineOutcome workerPoolCap 2 [flat50; pct20cap90] 500
       (pct20cap90, 90%float, None) log) <->
  findBestVoucherW workerPoolCap [flat50; pct20cap90] 500 (pct20cap90, 90%float, None).
Proof.
  apply (X20_atomic_steps_exact workerPoolCap 2 [flat50; pct20cap90] 500).
  cbn. lia.
Defined.

Lemma worker_or_log amt v :
  (List.length (worker amt v) + List.length (worker_log amt v) = 1)%nat.
Proof.
  unfold worker, worker_log. destruct (calculateDiscount v amt) as [d [e|]]; reflexivity.
Qed.

Lemma results_warnings_length amt vs :
  (List.length (results amt vs) + List.length (warnings amt vs) = List.length vs)%nat.
Proof.
  unfold results, warnings. induction vs as [|v vs IH]; [reflexivity|].
  cbn [flat_map List.length]. rewrite !length_app.
  pose proof (worker_or_log amt v). lia.
Qed.

Lemma In_warnings amt vs entry :
  In entry (warnings amt vs) <->
  exists v d err, In v vs /\ calculateDiscount v amt = (d, Some err) /\
    entry = Warn "Voucher condition not met" (Code v) err.
Proof.
  unfold warnings. rewrite in_flat_map. split.
  - intros (v & Hv & He). unfold worker_log in He.
    destruct (calculateDiscount v amt) as [d [err|]] eqn:E; cbn in He; [|tauto].
    destruct He as [<-|[]]. exists v, d, err. auto.
  - intros (v & d & err & Hv & Hc & ->). exists v. split; [exact Hv|].
    unfold worker_log. rewrite Hc. left. reflexivity.
Qed.

(** X17: a call of [findBestVoucher] that returns has called [logger.Warn]
    exactly once for each voucher that fails [calculateDiscount], with the
    voucher's code and that error, and has made no other call to the
    logger: the calls and the results sent are as many as the vouchers.
    (What the logger writes for these calls is not part of the
    statement.) *)
Theorem X17_one_warn_call_per_failure W cap vs amt out log :
  fineOutcome W cap vs amt out log ->
  Permutation (warnings amt vs) log /\
  (forall entry, In entry log <->
     exists v d err, In v vs /\ calculateDiscount v amt = (d, Some err) /\
       entry = Warn "Voucher condition not met" (Code v) err) /\
  (List.length log + List.length (results amt vs) = List.length vs)%nat.
Proof.
  intros H. apply fineOutcome_sound in H. destruct H as [_ HP].
  split; [exact HP|]. split.
  - intros entry. rewrite <- In_warnings. split; apply Permutation_in;
      [apply Permutation_sym|]; exact HP.
  - rewrite <- (Permutation_length HP).
    pose proof (results_warnings_length amt vs). lia.
Qed.

Lemma X17_one_call :
  exists out log,
    fineOutcome workerPoolCap 2 [flat50; malformed] 500 out log /\
    Permutation (warnings 500 [flat50; malformed]) log /\
    (List.length log + List.length (results 500 [flat50; malformed]) = 2)%nat.
Proof.
  assert (HW : (1 <= workerPoolCap)%nat) by (unfold workerPoolCap; lia).
  assert (Hcap : (List.length [flat50; malformed] <= 2)%nat) by (cbn; lia).
  destruct (fineOutcome_complete workerPoolCap 2 [flat50; malformed] 500 _ Hcap
              (findBestVoucherW_seq workerPoolCap [flat50; malformed] 500 HW))
    as [log H].
  exists (findBestVoucher_seq [flat50; malformed] 500), log.
  split; [exact H|].
  destruct (X17_one_warn_call_per_failure _ _ _ _ _ _ H) as (HP & _ & Hlen).
  split; [exact HP|exact Hlen].
Defined.

(** ** fetchVouchers *)

Lemma scanRows_ok vs : forall acc, scanRows (map inl vs) acc = (acc ++ vs, None).
Proof.
  induction vs as [|v vs IH]; intros acc; cbn.
  - rewrite app_nil_r. reflexivity.
  - rewrite IH, <- app_assoc. reflexivity.
Qed.

Lemma scanRows_error vs e rest : forall acc,
  scanRows (map inl vs ++ inr e :: rest) acc
    = ([], Some (fmt_Errorf "failed to scan voucher" e)).
Proof.
  induction vs as [|v vs IH]; intros acc; cbn; [reflexivity|apply IH].
Qed.

(** Either every row scans, or there is a first row that does not. *)
Lemma scans_cases (rs : list (Voucher + error)) :
  (exists vs, rs = map inl vs) \/
  (exists vs e rest, rs = map inl vs ++ inr e :: rest).
Proof.
  induction rs as [|[v|e] rs IH].
  - left. exists []. reflexivity.
  - destruct IH as [(vs & ->)|(vs & e & rest & ->)].
    + left. exists (v :: vs). reflexivity.
    + right. exists (v :: vs), e, rest. reflexivity.
  - right. exists [], e, rs. reflexivity.
Qed.

(** X15: [fetchVouchers] succeeds exactly when the query succeeds, every row
    scans and the iteration reports no error; it then returns the vouchers
    of all the rows, in the order of the rows. *)
Theorem X15_fetchVouchers_success query vouchers :
  fetchVouchers query = (vouchers, None) <->
  query = inl (mkRows (map inl vouchers) None).
Proof.
  split.
  - destruct query as [[rs re]|e]; cbn; [|discriminate].
    destruct (scans_cases rs) as [(vs & ->)|(vs & e & rest & ->)].
    + rewrite scanRows_ok. cbn. destruct re; [discriminate|].
      intros H. injection H as <-. reflexivity.
    + rewrite scanRows_error. discriminate.
  - intros ->. cbn. rewrite scanRows_ok. reflexivity.
Qed.

(** X16: when [fetchVouchers] fails it returns no voucher at all, and the
    error names the step that failed: the query; or the first row that
    does not scan, whatever the rows after it and the iteration report;
    or, every row having scanned, the iteration. *)
Theorem X16_fetchVouchers_failure query vouchers err :
  fetchVouchers query = (vouchers, Some err) ->
  vouchers = [] /\
  ((exists e, query = inr e /\ err = fmt_Errorf "failed to fetch vouchers" e) \/
   (exists vs e rest re,
      query = inl (mkRows (map inl vs ++ inr e :: rest) re) /\
      err = fmt_Errorf "failed to scan voucher" e) \/
   (exists vs e,
      query = inl (mkRows (map inl vs) (Some e)) /\
      err = fmt_Errorf "row iteration error" e)).
Proof.
  destruct query as [[rs re]|e]; cbn.
  - destruct (scans_cases rs) as [(vs & ->)|(vs & e & rest & ->)].
    + rewrite scanRows_ok. cbn. destruct re as [e|]; [|discriminate].
      intros H. injection H as <- <-. split; [reflexivity|].
      right. right. exists vs, e. auto.
    + rewrite scanRows_error. intros H. injection H as <- <-.
      split; [reflexivity|]. right. left. exists vs, e, rest, re. auto.
  - intros H. injection H as <- <-. split; [reflexivity|].
    left. exists e. auto.
Qed.

Lemma X16_bad_second_row :
  fetchVouchers badSecondRow
    = ([], Some (fmt_Errorf "failed to scan voucher" "bad column"%string)) /\
  ((exists e, badSecondRow = inr e /\
      fmt_Errorf "failed to scan voucher" "bad column"%string
        = fmt_Errorf "failed to fetch vouchers" e) \/
   (exists vs e rest re,
      badSecondRow = inl (mkRows (map inl vs ++ inr e :: rest) re) /\
      fmt_Errorf "failed to scan voucher" "bad column"%string
        = fmt_Errorf "failed to scan voucher" e) \/
   (exists vs e,
      badSecondRow = inl (mkRows (map inl vs) (Some e)) /\
      fmt_Errorf "failed to scan voucher" "bad column"%string
        = fmt_Errorf "row iteration error" e)).
Proof.
  assert (H : fetchVouchers badSecondRow
              = ([], Some (fmt_Errorf "failed to scan voucher" "bad column"%string)))
    by reflexivity.
  split; [exact H|].
  apply (X16_fetchVouchers_failure badSecondRow [] _ H).
Defined.

(** ** main *)

(** X19: when the connection is made and [fetchVouchers] succeeds, [main]
    can run to its end, and a run that has ended has called the logger as
    follows: [logger.Warn] once for each fetched voucher that fails at the
    order amount 500, in some order, and then one last call, either
    [logger.Error] with "no applicable voucher found", when no fetched
    voucher has a score above zero, or [logger.Info] with the id and the
    code of a fetched voucher and its score, which is at least 1, is +Inf
    or a finite whole number, and is exceeded by the score of no fetched
    voucher. *)
Theorem X19_main_report query vs :
  fetchVouchers query = (vs, None) ->
  (exists calls, main None query calls) /\
  forall calls, main None query calls ->
    exists warns last,
      calls = warns ++ [last] /\
      Permutation (warnings mainOrderAmount vs) warns /\
      ((last = Error "Failed to find best voucher" ErrNoVoucher /\
        forall v d, In v vs -> scores mainOrderAmount v d -> gtb d 0 = false)
       \/
       (exists w s,
          last = Info "Best voucher found" (Id w) (Code w) s /\
          In w vs /\ scores mainOrderAmount w s /\
          (1 <=? s)%float = true /\
          (s = infinity \/ wholeNumber s = true) /\
          forall v d, In v vs -> scores mainOrderAmount v d -> gtb d s = false)).
Proof.
  intros Hf. split.
  - destruct (findBestVoucher_total vs mainOrderAmount) as [[[b d] e] Hout].
    apply (fineOutcome_complete workerPoolCap (List.length vs)) in Hout; [|lia].
    destruct Hout as [log HL].
    destruct e as [e|]; eexists.
    + eapply main_none; [reflexivity|exact Hf|exact HL].
    + eapply main_best; [reflexivity|exact Hf|exact HL].
  - intros log H.
    destruct H as [e H|vs' err _ H|vs' b d err l _ H HL|vs' b d l _ H HL];
      try discriminate; rewrite Hf in H; try discriminate;
      injection H as <-; apply fineOutcome_sound in HL;
      destruct HL as [Hout HP]; eexists l, _; (split; [reflexivity|]);
      (split; [exact HP|]).
    + left. destruct (findBestVoucherW_cases _ _ _ _ Hout)
        as [[E Hall]|(w' & s' & E & _)]; [|discriminate].
      injection E as _ _ <-. auto.
    + right. exists b, d. split; [reflexivity|].
      apply (findBestVoucherW_winner _ _ _ _ _ Hout).
Qed.

Lemma X19_three_rows :
  (exists calls, main None threeRows calls) /\
  forall calls, main None threeRows calls ->
    exists warns last,
      calls = warns ++ [last] /\
      Permutation (warnings mainOrderAmount [flat50; pct20cap90; malformed]) warns /\
      ((last = Error "Failed to find best voucher" ErrNoVoucher /\
        forall v d, In v [flat50; pct20cap90; malformed] ->
          scores mainOrderAmount v d -> gtb d 0 = false)
       \/
       (exists w s,
          last = Info "Best voucher found" (Id w) (Code w) s /\
          In w [flat50; pct20cap90; malformed] /\ scores mainOrderAmount w s /\
          (1 <=? s)%float = true /\
          (s = infinity \/ wholeNumber s = true) /\
          forall v d, In v [flat50; pct20cap90; malformed] ->
            scores mainOrderAmount v d -> gtb d s = false)).
Proof. apply (X19_main_report threeRows [flat50; pct20cap90; malformed]). reflexivity. Defined.
